(** * Ring lifecycle and breach detection of the ball-escape simulation

    A shallow embedding of [main.py]: the geometry helper [angle_in_range],
    the classes [RotatingArcCircle], [Ball] and [Particle], the two collision
    callbacks and the body of the simulation loop (escape scan, skip
    destruction, precise breach test, particle pass, end-of-round test).

    Python floats are modelled as real numbers (rounding is left out), Python
    integers as [Z].  Code that can raise returns [option]: [None] stands
    for a Python exception.  The physics engine and the random generator are
    not part of the program: the engine is a step relation that may move the
    bodies and call the registered callbacks, the generator is an oracle
    [nat -> R] read through a cursor kept in the state. *)

From Stdlib Require Import Reals ZArith List Bool Lia Lra.
From Stdlib Require String Ascii.
Import ListNotations.

Open Scope R_scope.

(** ** Numbers as Python has them *)

Definition Rltb (x y : R) : bool := if Rlt_dec x y then true else false.
Definition Rleb (x y : R) : bool := if Rle_dec x y then true else false.

(** [x % m] on floats, for [m > 0]: the result lies in [[0, m)]. *)
Definition py_fmod (x m : R) : R := x - IZR (Int_part (x / m)) * m.

(** [int(x // m)]; float floor division by zero raises. *)
Definition py_floordiv (x m : R) : option Z :=
  if Req_dec_T m 0 then None else Some (Int_part (x / m)).

Definition TWO_PI : R := 2 * PI.

(** [math.atan2(y, x)], with values in [(-PI, PI]]. *)
Definition atan2 (y x : R) : R :=
  if Rlt_dec 0 x then atan (y / x)
  else if Rlt_dec x 0 then
         if Rle_dec 0 y then atan (y / x) + PI else atan (y / x) - PI
  else if Rlt_dec 0 y then PI / 2
  else if Rlt_dec y 0 then - (PI / 2)
  else 0.

(** [seq[i]] with Python's negative indices; [None] is an IndexError. *)
Definition py_get {A : Type} (l : list A) (i : Z) : option A :=
  if (0 <=? i)%Z then nth_error l (Z.to_nat i)
  else if (- Z.of_nat (length l) <=? i)%Z
       then nth_error l (Z.to_nat (Z.of_nat (length l) + i))
       else None.

(** The position [seq[i]] names, as a plain list position. *)
Definition py_pos {A : Type} (l : list A) (i : Z) : nat :=
  if (0 <=? i)%Z then Z.to_nat i else Z.to_nat (Z.of_nat (length l) + i).

Fixpoint list_set {A : Type} (l : list A) (n : nat) (x : A) : list A :=
  match l, n with
  | [], _ => []
  | _ :: t, O => x :: t
  | h :: t, S n' => h :: list_set t n' x
  end.

Fixpoint range_from (lo : Z) (n : nat) : list Z :=
  match n with
  | O => []
  | S n' => lo :: range_from (lo + 1)%Z n'
  end.

(** [range(lo, hi)]. *)
Definition py_range (lo hi : Z) : list Z := range_from lo (Z.to_nat (hi - lo)).

(** ** The random generator

    [random.random()] is the next value of the oracle; [random.uniform(a, b)]
    is [a + (b - a) * random.random()]. *)

Definition uniform (rng : nat -> R) (cur : nat) (a b : R) : R :=
  a + (b - a) * rng cur.

(** ** Utility functions *)

Definition angle_in_range (angle start end_ : R) : bool :=
  let angle := py_fmod angle TWO_PI in
  let start := py_fmod start TWO_PI in
  let end_ := py_fmod end_ TWO_PI in
  if Rltb start end_
  then Rleb start angle && Rleb angle end_
  else Rleb start angle || Rleb angle end_.

(** ** Classes *)

Module RotatingArcCircle.
Record t : Type := mk {
  radius : R;
  arc_start : R;
  arc_length : R;
  angular_velocity : R;
  body_angle : R;          (* self.body.angle, advanced by the engine *)
  active : bool
}.

(** [remove]: the segments leave the space and the ring is switched off. *)
Definition remove (c : t) : t :=
  mk (radius c) (arc_start c) (arc_length c) (angular_velocity c)
     (body_angle c) false.

Definition get_gap_angles (c : t) : R * R :=
  let gap_start := py_fmod (arc_start c + arc_length c + body_angle c) TWO_PI in
  let gap_end := py_fmod (arc_start c + 2 * PI + body_angle c) TWO_PI in
  (gap_start, gap_end).
End RotatingArcCircle.

Module Ball.
Record t : Type := mk {
  pos_x : R;               (* self.body.position *)
  pos_y : R;
  vel_x : R;               (* self.body.velocity *)
  vel_y : R;
  radius : R
}.

(** [Ball(position, radius, space, color, speed, damping)]: the direction
    of the initial velocity is one random draw. *)
Definition init (rng : nat -> R) (cur : nat) (position : R * R)
           (radius speed : R) : t :=
  let angle := uniform rng cur 0 (2 * PI) in
  mk (fst position) (snd position) (speed * cos angle) (speed * sin angle)
     radius.
End Ball.

Module Particle.
Record t : Type := mk {
  pos_x : R;
  pos_y : R;
  vel_x : R;
  vel_y : R;
  lifetime : R
}.

Definition update (dt : R) (p : t) : t :=
  mk (pos_x p + vel_x p * dt) (pos_y p + vel_y p * dt)
     (vel_x p) (vel_y p) (lifetime p - dt).
End Particle.

(** ** Arguments and local variables of [main] *)

Record Config : Type := mkConfig {
  num_arcs : Z;
  ball_radius : R;
  initial_balls : Z;
  base_multiplier : R;
  particle_count : Z;
  ball_speed : R;
  center_x : R;
  center_y : R;
  sounds_loaded : bool;      (* false when loading the sound files failed *)
  arc_smoothness : Z;        (* the number of segments of each arc *)
  rng : nat -> R
}.

Definition base_radius_val (cfg : Config) : R :=
  ball_radius cfg * base_multiplier cfg.

(** The distance between arcs equals the ball radius. *)
Definition radius_increment (cfg : Config) : R := ball_radius cfg.

Definition dt : R := 1 / 60.

Inductive Sound : Type :=
| HitSound (pick : R)        (* random.choice(random_hit_sounds).play() *)
| VanishSound.

Record State : Type := mkState {
  balls : list Ball.t;
  circles : list RotatingArcCircle.t;
  active_circle_index : Z;
  particles : list Particle.t;
  ball_hits : Z;
  time_left : R;
  rng_pos : nat;
  sounds : list Sound;
  running : bool;
  game_won : option bool     (* None: not assigned yet *)
}.

Definition set_balls (bs : list Ball.t) (st : State) : State :=
  mkState bs (circles st) (active_circle_index st) (particles st)
          (ball_hits st) (time_left st) (rng_pos st) (sounds st)
          (running st) (game_won st).

Definition set_circles (cs : list RotatingArcCircle.t) (st : State) : State :=
  mkState (balls st) cs (active_circle_index st) (particles st)
          (ball_hits st) (time_left st) (rng_pos st) (sounds st)
          (running st) (game_won st).

Definition set_active_circle_index (i : Z) (st : State) : State :=
  mkState (balls st) (circles st) i (particles st)
          (ball_hits st) (time_left st) (rng_pos st) (sounds st)
          (running st) (game_won st).

Definition set_particles (ps : list Particle.t) (st : State) : State :=
  mkState (balls st) (circles st) (active_circle_index st) ps
          (ball_hits st) (time_left st) (rng_pos st) (sounds st)
          (running st) (game_won st).

Definition set_ball_hits (h : Z) (st : State) : State :=
  mkState (balls st) (circles st) (active_circle_index st) (particles st)
          h (time_left st) (rng_pos st) (sounds st)
          (running st) (game_won st).

Definition set_time_left (t : R) (st : State) : State :=
  mkState (balls st) (circles st) (active_circle_index st) (particles st)
          (ball_hits st) t (rng_pos st) (sounds st)
          (running st) (game_won st).

Definition set_rng_pos (n : nat) (st : State) : State :=
  mkState (balls st) (circles st) (active_circle_index st) (particles st)
          (ball_hits st) (time_left st) n (sounds st)
          (running st) (game_won st).

Definition play (s : Sound) (st : State) : State :=
  mkState (balls st) (circles st) (active_circle_index st) (particles st)
          (ball_hits st) (time_left st) (rng_pos st) (sounds st ++ [s])
          (running st) (game_won st).

Definition set_running (r : bool) (st : State) : State :=
  mkState (balls st) (circles st) (active_circle_index st) (particles st)
          (ball_hits st) (time_left st) (rng_pos st) (sounds st)
          r (game_won st).

Definition set_game_won (w : option bool) (st : State) : State :=
  mkState (balls st) (circles st) (active_circle_index st) (particles st)
          (ball_hits st) (time_left st) (rng_pos st) (sounds st)
          (running st) w.

(** [len(circles)] as a Python integer. *)
Definition len_circles (st : State) : Z := Z.of_nat (length (circles st)).

(** ** The body of the simulation loop *)

(** [radial = Vec2d(dx, dy)] for a ball, and the quantities read from it. *)
Definition radial_dx (cfg : Config) (b : Ball.t) : R := Ball.pos_x b - center_x cfg.
Definition radial_dy (cfg : Config) (b : Ball.t) : R := Ball.pos_y b - center_y cfg.

Definition radial_length (cfg : Config) (b : Ball.t) : R :=
  sqrt (radial_dx cfg b * radial_dx cfg b + radial_dy cfg b * radial_dy cfg b).

(** [ball.body.velocity.dot(radial)]. *)
Definition radial_dot (cfg : Config) (b : Ball.t) : R :=
  Ball.vel_x b * radial_dx cfg b + Ball.vel_y b * radial_dy cfg b.

(** The particle batch of one vanishing ring: two draws per particle. *)
Fixpoint spawn_particles (cfg : Config) (c : RotatingArcCircle.t)
         (n : nat) (cur : nat) : list Particle.t :=
  match n with
  | O => []
  | S n' =>
      let part_angle :=
        uniform (rng cfg) cur
          (RotatingArcCircle.arc_start c + RotatingArcCircle.body_angle c)
          (RotatingArcCircle.arc_start c + RotatingArcCircle.arc_length c
           + RotatingArcCircle.body_angle c) in
      let particle_speed := uniform (rng cfg) (S cur) 50 150 in
      Particle.mk (center_x cfg + RotatingArcCircle.radius c * cos part_angle)
                  (center_y cfg + RotatingArcCircle.radius c * sin part_angle)
                  (particle_speed * cos part_angle)
                  (particle_speed * sin part_angle)
                  1
      :: spawn_particles cfg c n' (S (S cur))
  end.

(** What both branches do to a ring that goes: [remove], the vanish sound
    and the particle batch.  [pos] is the ring's place in [circles]. *)
Definition vanish (cfg : Config) (pos : nat) (c : RotatingArcCircle.t)
           (st : State) : State :=
  let st1 := set_circles (list_set (circles st) pos (RotatingArcCircle.remove c)) st in
  let st2 := if sounds_loaded cfg then play VanishSound st1 else st1 in
  let n := Z.to_nat (particle_count cfg) in
  set_rng_pos (rng_pos st2 + 2 * n)
    (set_particles (particles st2 ++ spawn_particles cfg c n (rng_pos st2)) st2).

(** One ball of the escape scan: the new [max_escape_index]. *)
Definition escape_step (cfg : Config) (b : Ball.t) (max_escape_index : Z)
  : option Z :=
  if Rltb 0 (radial_length cfg b) && Rltb 0 (radial_dot cfg b) then
    let ball_outer := radial_length cfg b + Ball.radius b in
    match py_floordiv (ball_outer - base_radius_val cfg) (radius_increment cfg) with
    | None => None
    | Some escape_index =>
        if (escape_index >? max_escape_index)%Z then Some escape_index
        else Some max_escape_index
    end
  else Some max_escape_index.

Fixpoint escape_scan (cfg : Config) (bs : list Ball.t) (max_escape_index : Z)
  : option Z :=
  match bs with
  | [] => Some max_escape_index
  | b :: bs' =>
      match escape_step cfg b max_escape_index with
      | None => None
      | Some m => escape_scan cfg bs' m
      end
  end.

(** The loop over [range(active_circle_index, min(max_escape_index, len(circles)))]. *)
Fixpoint skip_loop (cfg : Config) (idxs : list Z) (st : State) : option State :=
  match idxs with
  | [] => Some st
  | i :: rest =>
      match py_get (circles st) i with
      | None => None
      | Some c =>
          if RotatingArcCircle.active c
          then skip_loop cfg rest (vanish cfg (py_pos (circles st) i) c st)
          else skip_loop cfg rest st
      end
  end.

(** The condition under which a ball breaches [current_circle]. *)
Definition breach_test (cfg : Config) (current_circle : RotatingArcCircle.t)
           (b : Ball.t) : bool :=
  Rleb (RotatingArcCircle.radius current_circle)
       (radial_length cfg b + Ball.radius b)
  && Rltb 0 (radial_dot cfg b)
  && (let ball_angle := py_fmod (atan2 (radial_dy cfg b) (radial_dx cfg b)) TWO_PI in
      let (gap_start, gap_end) := RotatingArcCircle.get_gap_angles current_circle in
      angle_in_range ball_angle gap_start gap_end).

(** [ball.body.velocity = (vx * 1.1, vy * 1.1)]. *)
Definition speed_up (b : Ball.t) : Ball.t :=
  Ball.mk (Ball.pos_x b) (Ball.pos_y b)
          (Ball.vel_x b * (11 / 10)) (Ball.vel_y b * (11 / 10)) (Ball.radius b).

(** The precise test of the ring at [active_circle_index]: the first ball
    that passes ends the loop. *)
Definition precise_breach (cfg : Config) (st : State) : option State :=
  if (active_circle_index st <? len_circles st)%Z then
    match py_get (circles st) (active_circle_index st) with
    | None => None
    | Some current_circle =>
        if RotatingArcCircle.active current_circle then
          match find (breach_test cfg current_circle) (balls st) with
          | Some _ =>
              let st1 := vanish cfg (py_pos (circles st) (active_circle_index st))
                                current_circle st in
              let st2 := set_active_circle_index (active_circle_index st1 + 1) st1 in
              Some (set_balls (map speed_up (balls st2)) st2)
          | None => Some st
          end
        else Some st
    end
  else Some st.

(** Lines 294-354: the escape scan, then the skip or the precise test. *)
Definition ring_manager (cfg : Config) (st : State) : option State :=
  match escape_scan cfg (balls st) (active_circle_index st) with
  | None => None
  | Some max_escape_index =>
      if (max_escape_index >? active_circle_index st)%Z then
        match skip_loop cfg
                (py_range (active_circle_index st)
                          (Z.min max_escape_index (len_circles st))) st with
        | None => None
        | Some st' => Some (set_active_circle_index max_escape_index st')
        end
      else precise_breach cfg st
  end.

(** Lines 356-358: every particle is updated, the expired ones are dropped. *)
Definition particle_pass (dt : R) (ps : list Particle.t) : list Particle.t :=
  filter (fun p => Rltb 0 (Particle.lifetime p)) (map (Particle.update dt) ps).

(** Lines 381-386: [Some true] is [game_won = True], [Some false] is
    [game_won = False], [None] leaves the loop running. *)
Definition round_verdict (n_circles active_circle_index : Z) (time_left : R)
  : option bool :=
  let arcs_left := (n_circles - active_circle_index)%Z in
  if (active_circle_index >=? n_circles)%Z && (arcs_left <? -100)%Z then Some true
  else if Rleb time_left 0 then Some false
  else None.

Definition end_of_round_test (st : State) : State :=
  match round_verdict (len_circles st) (active_circle_index st) (time_left st) with
  | Some w => set_game_won (Some w) (set_running false st)
  | None => st
  end.

Inductive MatchState : Type := Running | Won | Lost.

(** The round is decided once the loop has been stopped ([running] is
    [False]) with [game_won] assigned; in every other state it is running. *)
Definition match_state (st : State) : MatchState :=
  match running st, game_won st with
  | false, Some true => Won
  | false, Some false => Lost
  | _, _ => Running
  end.

(** The part of an iteration before [space.step]: a QUIT event clears
    [running], the clock goes down, each ball gets an impulse in a random
    direction (one draw per ball; the engine turns it into velocity). *)
Definition begin_iteration (quit : bool) (st : State) : State :=
  let st1 := if quit then set_running false st else st in
  let st2 := set_time_left (time_left st1 - dt) st1 in
  set_rng_pos (rng_pos st2 + length (balls st2)) st2.

(** The part of an iteration after [space.step]. *)
Definition after_step (cfg : Config) (st : State) : option State :=
  match ring_manager cfg st with
  | None => None
  | Some st1 =>
      Some (end_of_round_test
              (set_particles (particle_pass dt (particles st1)) st1))
  end.

(** ** Collision callbacks *)

Definition ball_arc_collision (cfg : Config) (st : State) : State * bool :=
  let st1 := set_ball_hits (ball_hits st + 1) st in
  let st2 := if sounds_loaded cfg
             then set_rng_pos (S (rng_pos st1)) (play (HitSound (rng cfg (rng_pos st1))) st1)
             else st1 in
  (st2, true).

Definition distance (p q : R * R) : R :=
  sqrt ((fst p - fst q) * (fst p - fst q) + (snd p - snd q) * (snd p - snd q)).

(** The [while attempts < 20] search; [fuel] is [20 - attempts]. *)
Fixpoint candidate_loop (cfg : Config) (R_enclosing : R) (p1 p2 : R * R)
         (fuel : nat) (cur : nat) (candidate : option (R * R))
  : option (R * R) * nat :=
  match fuel with
  | O => (candidate, cur)
  | S fuel' =>
      let theta := uniform (rng cfg) cur 0 (2 * PI) in
      let r := uniform (rng cfg) (S cur) (R_enclosing * (1 / 2)) R_enclosing in
      let cand := (center_x cfg + r * cos theta, center_y cfg + r * sin theta) in
      let min_dist := 3 * ball_radius cfg in
      if Rleb min_dist (distance cand p1) && Rleb min_dist (distance cand p2)
      then (Some cand, S (S cur))
      else candidate_loop cfg R_enclosing p1 p2 fuel' (S (S cur)) (Some cand)
  end.

(** [arbiter.shapes[0].body] and [arbiter.shapes[1].body]: the positions
    of the two colliding balls. *)
Record Arbiter : Type := mkArbiter { b1_position : R * R; b2_position : R * R }.

Definition ball_ball_collision (cfg : Config) (arbiter : Arbiter) (st : State)
  : option (State * bool) :=
  if (length (balls st) <? 100)%nat then
    let st1 := set_ball_hits (ball_hits st + 1) st in
    let st2 := if sounds_loaded cfg
               then set_rng_pos (S (rng_pos st1)) (play (HitSound (rng cfg (rng_pos st1))) st1)
               else st1 in
    let R_enclosing :=
      if (active_circle_index st2 <? len_circles st2)%Z
      then option_map RotatingArcCircle.radius
                      (py_get (circles st2) (active_circle_index st2))
      else Some (base_radius_val cfg + (IZR (num_arcs cfg) - 1) * ball_radius cfg) in
    match R_enclosing with
    | None => None
    | Some R_enclosing =>
        let (candidate, cur) :=
          candidate_loop cfg R_enclosing (b1_position arbiter) (b2_position arbiter)
                         20 (rng_pos st2) None in
        match candidate with
        | None => None
        | Some candidate =>
            let new_ball := Ball.init (rng cfg) cur candidate
                                      (ball_radius cfg) (ball_speed cfg) in
            Some (set_rng_pos (S cur) (set_balls (balls st2 ++ [new_ball]) st2), true)
        end
    end
  else Some (st, true).

(** ** Setup *)

(** Lines 215-219: the initial balls, evenly spread on the inner arc. *)
Fixpoint create_balls (cfg : Config) (n : nat) (i : nat) (cur : nat) : list Ball.t :=
  match n with
  | O => []
  | S n' =>
      let theta := 2 * PI * INR i / IZR (initial_balls cfg) in
      let pos := (center_x cfg + base_radius_val cfg * cos theta,
                  center_y cfg + base_radius_val cfg * sin theta) in
      Ball.init (rng cfg) cur pos (ball_radius cfg) (ball_speed cfg)
      :: create_balls cfg n' (S i) (S cur)
  end.

(** All results, or [None] as soon as one computation raised. *)
Fixpoint sequence {A : Type} (l : list (option A)) : option (list A) :=
  match l with
  | [] => Some []
  | None :: _ => None
  | Some x :: t =>
      match sequence t with
      | None => None
      | Some t' => Some (x :: t')
      end
  end.

(** Lines 69-73 of [RotatingArcCircle.__init__]: point [i] of the arc;
    the division by [segments] raises when [segments] is 0. *)
Definition arc_point (radius arc_start arc_length : R) (segments i : Z)
  : option (R * R) :=
  if (segments =? 0)%Z then None
  else
    let a := arc_start + arc_length * IZR i / IZR segments in
    Some (radius * cos a, radius * sin a).

Definition arc_points (radius arc_start arc_length : R) (segments : Z)
  : option (list (R * R)) :=
  sequence (map (arc_point radius arc_start arc_length segments)
                (py_range 0 (segments + 1))).

(** Lines 74-80: segment [i] joins [points[i]] and [points[i+1]]. *)
Definition arc_segments (points : list (R * R)) (segments : Z)
  : option (list ((R * R) * (R * R))) :=
  sequence (map (fun i => match py_get points i, py_get points (i + 1) with
                          | Some p, Some q => Some (p, q)
                          | _, _ => None
                          end)
                (py_range 0 segments)).

(** [RotatingArcCircle(radius, arc_start, arc_length, angular_velocity,
    center, space, color, segments)]: the constructor computes the points of
    the arc and the collision segments between them, and raises when that
    does; the new ring has not turned yet and is active. *)
Definition new_arc (radius arc_start arc_length angular_velocity : R)
           (segments : Z) : option RotatingArcCircle.t :=
  match arc_points radius arc_start arc_length segments with
  | None => None
  | Some points =>
      match arc_segments points segments with
      | None => None
      | Some _ =>
          Some (RotatingArcCircle.mk radius arc_start arc_length
                                     angular_velocity 0 true)
      end
  end.

(** Lines 259-267: four draws per arc, the last one picks the direction;
    the arcs are built in order and the first constructor that raises ends
    the setup. *)
Fixpoint create_circles (cfg : Config) (n : nat) (i : nat) (cur : nat)
  : option (list RotatingArcCircle.t) :=
  match n with
  | O => Some []
  | S n' =>
      let radius := base_radius_val cfg + INR i * radius_increment cfg in
      let arc_fraction := uniform (rng cfg) cur (8 / 10) (9 / 10) in
      let arc_length := 2 * PI * arc_fraction in
      let arc_start := uniform (rng cfg) (S cur) 0 (2 * PI) in
      let rot_speed := uniform (rng cfg) (S (S cur)) (PI / 4) (PI / 2) in
      let rot_speed := if Rltb (rng cfg (S (S (S cur)))) (1 / 2)
                       then - rot_speed else rot_speed in
      match new_arc radius arc_start arc_length rot_speed (arc_smoothness cfg) with
      | None => None
      | Some c =>
          match create_circles cfg n' (S i) (S (S (S (S cur)))) with
          | None => None
          | Some cs => Some (c :: cs)
          end
      end
  end.

(** The state in which the loop starts; [None] when the setup raised. *)
Definition initial_state (cfg : Config) (countdown : R) : option State :=
  let nb := Z.to_nat (initial_balls cfg) in
  let nc := Z.to_nat (num_arcs cfg) in
  match create_circles cfg nc 0 nb with
  | None => None
  | Some cs =>
      Some (mkState (create_balls cfg nb 0 0) cs 0 []
                    0 countdown (nb + 4 * nc) [] true None)
  end.

(** ** The engine and the loop as a step relation *)

(** What [space.step] may do to the bodies: balls move and change velocity,
    rings turn; nothing is created or removed and no radius changes. *)
Definition same_ball (b b' : Ball.t) : Prop := Ball.radius b' = Ball.radius b.

Definition same_ring (c c' : RotatingArcCircle.t) : Prop :=
  RotatingArcCircle.radius c' = RotatingArcCircle.radius c
  /\ RotatingArcCircle.arc_start c' = RotatingArcCircle.arc_start c
  /\ RotatingArcCircle.arc_length c' = RotatingArcCircle.arc_length c
  /\ RotatingArcCircle.angular_velocity c' = RotatingArcCircle.angular_velocity c
  /\ RotatingArcCircle.active c' = RotatingArcCircle.active c.

Inductive step (cfg : Config) : State -> State -> Prop :=
| step_begin (quit : bool) (st : State) :
    step cfg st (begin_iteration quit st)
| step_move (st : State) (bs : list Ball.t) (cs : list RotatingArcCircle.t) :
    Forall2 same_ball (balls st) bs ->
    Forall2 same_ring (circles st) cs ->
    step cfg st (set_circles cs (set_balls bs st))
| step_ball_arc (st : State) :
    step cfg st (fst (ball_arc_collision cfg st))
| step_ball_ball (arbiter : Arbiter) (st st' : State) (r : bool) :
    ball_ball_collision cfg arbiter st = Some (st', r) ->
    step cfg st st'
| step_after (st st' : State) :
    after_step cfg st = Some st' ->
    step cfg st st'.

Inductive reachable (cfg : Config) (countdown : R) : State -> Prop :=
| reachable_init (st0 : State) :
    initial_state cfg countdown = Some st0 -> reachable cfg countdown st0
| reachable_step (st st' : State) :
    reachable cfg countdown st -> step cfg st st' -> reachable cfg countdown st'.

(** ** Notions used to state the properties *)

(** The radial vector of a ball is not the zero vector. *)
Definition nonzero_radial (cfg : Config) (b : Ball.t) : bool :=
  if Req_dec_T (radial_dx cfg b) 0
  then (if Req_dec_T (radial_dy cfg b) 0 then false else true)
  else true.

(** The maximum of the specification, following its words: over the balls
    with a nonzero radial vector and a positive radial speed, of
    [floor((|radial| + ballRadius - baseRadius) / ringSpacing)], together
    with the current active index. *)
Definition spec_escape_index (cfg : Config) (b : Ball.t) : Z :=
  Int_part ((radial_length cfg b + Ball.radius b - base_radius_val cfg)
            / radius_increment cfg).

Definition spec_max_escape_index (cfg : Config) (bs : list Ball.t)
           (active_index : Z) : Z :=
  fold_right Z.max active_index
    (map (spec_escape_index cfg)
         (filter (fun b => nonzero_radial cfg b && Rltb 0 (radial_dot cfg b)) bs)).

(** The angular position of a ball, [atan2(dy, dx) mod 2 PI]. *)
Definition ball_angle (cfg : Config) (b : Ball.t) : R :=
  py_fmod (atan2 (radial_dy cfg b) (radial_dx cfg b)) TWO_PI.

(** The ball's angle lies in the ring's current gap, boundaries included. *)
Definition in_gap (cfg : Config) (c : RotatingArcCircle.t) (b : Ball.t) : Prop :=
  let a := ball_angle cfg b in
  let gs := fst (RotatingArcCircle.get_gap_angles c) in
  let ge := snd (RotatingArcCircle.get_gap_angles c) in
  (gs < ge /\ gs <= a <= ge) \/ (ge <= gs /\ (gs <= a \/ a <= ge)).

(** The same with the two boundaries left out. *)
Definition strictly_in_gap (cfg : Config) (c : RotatingArcCircle.t) (b : Ball.t)
  : Prop :=
  let a := ball_angle cfg b in
  let gs := fst (RotatingArcCircle.get_gap_angles c) in
  let ge := snd (RotatingArcCircle.get_gap_angles c) in
  (gs < ge /\ gs < a < ge) \/ (ge <= gs /\ (gs < a \/ a < ge)).

(** A ball that breaches ring [c]: its outer edge has reached the ring, it
    moves outward and its angle lies in the gap. *)
Definition breaches (cfg : Config) (c : RotatingArcCircle.t) (b : Ball.t) : Prop :=
  RotatingArcCircle.radius c <= radial_length cfg b + Ball.radius b
  /\ 0 < radial_dot cfg b
  /\ in_gap cfg c b.

(** The condition of the first branch of the end-of-round test. *)
Definition won_condition (st : State) : Prop :=
  (active_circle_index st >= len_circles st)%Z
  /\ (len_circles st - active_circle_index st < -100)%Z.

Definition live (p : Particle.t) : Prop := 0 < Particle.lifetime p.

(** The ring a state shows at place [i] after the rings of [[lo, hi)] went. *)
Definition after_skip (lo hi : Z) (i : nat) (c : RotatingArcCircle.t)
  : RotatingArcCircle.t :=
  if ((lo <=? Z.of_nat i) && (Z.of_nat i <? hi))%Z
  then RotatingArcCircle.remove c else c.

(** The ring the precise test looks at, when there is one to test. *)
Definition target_ring (st : State) : option RotatingArcCircle.t :=
  if (active_circle_index st <? len_circles st)%Z then
    match nth_error (circles st) (Z.to_nat (active_circle_index st)) with
    | Some c => if RotatingArcCircle.active c then Some c else None
    | None => None
    end
  else None.

(** Any number of steps. *)
Inductive steps (cfg : Config) : State -> State -> Prop :=
| steps_refl (st : State) : steps cfg st st
| steps_cons (st st' st'' : State) :
    step cfg st st' -> steps cfg st' st'' -> steps cfg st st''.

(** ** Sample configurations and states *)

Definition sample_config (n_balls : Z) : Config :=
  mkConfig 3 1 n_balls 10 2 150 0 0 true 20 (fun _ => 0).

(** Ring [i] of the sample: radius [10 + i], solid on 85% of the circle,
    so that its gap runs from [17 PI / 10] to [2 PI], not yet turned. *)
Definition sample_ring (i : Z) : RotatingArcCircle.t :=
  RotatingArcCircle.mk (10 + IZR i) 0 (2 * PI * (17 / 20)) (PI / 4) 0 true.

Definition sample_rings : list RotatingArcCircle.t :=
  [sample_ring 0; sample_ring 1; sample_ring 2].

(** A ball on the positive x axis at distance [x], moving outward. *)
Definition ball_on_axis (x : R) : Ball.t := Ball.mk x 0 1 0 1.

Definition sample_state (bs : list Ball.t) (active_index : Z) (t : R) : State :=
  mkState bs sample_rings active_index [] 0 t 0 [] true None.

(** The outer edge of the ball is at 12: two rings behind it. *)
Definition skip_state : State := sample_state [ball_on_axis 11] 0 30.

(** The outer edge of the ball touches ring 0 at angle 0, the end of the gap. *)
Definition boundary_state : State := sample_state [ball_on_axis 9] 0 30.

(** A ball sitting on the common center. *)
Definition centered_ball : Ball.t := Ball.mk 0 0 1 1 1.

(** All rings cleared one at a time, time remaining. *)
Definition cleared_state : State := sample_state [] 3 30.

(** The active index is 101 past the three rings and the clock has run out. *)
Definition over_advanced_timeout_state : State := sample_state [] 104 0.

Definition crowded_state : State :=
  sample_state (repeat (ball_on_axis 5) 100) 0 30.

(** ** The rest of [main.py] *)

(** [int(x)] on a float: truncation toward zero. *)
Definition py_int_of_float (x : R) : Z :=
  if Rle_dec 0 x then Int_part x else (- Int_part (- x))%Z.

(** Lines 174-184: the window size for the wanted aspect ratio, from the
    available resolution. *)
Definition window_size (avail_w avail_h : Z) (aspect_ratio : R) : Z * Z :=
  if (if Req_dec_T aspect_ratio 0 then false else true) && Rltb 0 aspect_ratio then
    let new_width := py_int_of_float (IZR avail_h * aspect_ratio) in
    if (new_width >? avail_w)%Z
    then (avail_w, py_int_of_float (IZR avail_w / aspect_ratio))
    else (new_width, avail_h)
  else (avail_w, avail_h).

(** The point the constructor computes for index [i]. *)
Definition arc_point_at (radius arc_start arc_length : R) (segments i : Z) : R * R :=
  (radius * cos (arc_start + arc_length * IZR i / IZR segments),
   radius * sin (arc_start + arc_length * IZR i / IZR segments)).

(** The fields of the state that only the clock, the callbacks and the
    end-of-round test write. *)
Definition same_counters (st st' : State) : Prop :=
  ball_hits st' = ball_hits st
  /\ time_left st' = time_left st
  /\ running st' = running st
  /\ game_won st' = game_won st.

(** A ring is active exactly from the active index on. *)
Definition rings_match_index (st : State) : Prop :=
  forall (i : nat) (c : RotatingArcCircle.t),
    nth_error (circles st) i = Some c ->
    RotatingArcCircle.active c = (active_circle_index st <=? Z.of_nat i)%Z.

(** The radius of the last ring, used once the active index is past it. *)
Definition last_ring_radius (cfg : Config) : R :=
  base_radius_val cfg + (IZR (num_arcs cfg) - 1) * ball_radius cfg.

(** The number of rings still standing. *)
Definition count_active (cs : list RotatingArcCircle.t) : nat :=
  length (filter RotatingArcCircle.active cs).

(** Line 390: the colour of the end message; reading [game_won] before it
    was assigned raises. *)
Definition end_text_color (st : State) : option (Z * Z * Z) :=
  match game_won st with
  | None => None
  | Some true => Some (0, 255, 0)%Z
  | Some false => Some (255, 0, 0)%Z
  end.

(** [random.random()] returns a value of [[0, 1)]. *)
Definition unit_draws (rng : nat -> R) : Prop := forall n, 0 <= rng n < 1.

(** The solid arc of a ring reaches from [arc_start + angle] to
    [arc_start + arc_length + angle]; [on_ring c cfg x y t] places the point
    [(x, y)] on the ring's circle at angle [arc_start + angle + t]. *)
Definition on_ring (cfg : Config) (c : RotatingArcCircle.t) (x y t : R) : Prop :=
  x = center_x cfg
      + RotatingArcCircle.radius c
        * cos (RotatingArcCircle.arc_start c + RotatingArcCircle.body_angle c + t)
  /\ y = center_y cfg
         + RotatingArcCircle.radius c
           * sin (RotatingArcCircle.arc_start c + RotatingArcCircle.body_angle c + t).

(** A ring after the engine has turned its body by [delta]. *)
Definition turned (delta : R) (c : RotatingArcCircle.t) : RotatingArcCircle.t :=
  RotatingArcCircle.mk (RotatingArcCircle.radius c) (RotatingArcCircle.arc_start c)
    (RotatingArcCircle.arc_length c) (RotatingArcCircle.angular_velocity c)
    (RotatingArcCircle.body_angle c + delta) (RotatingArcCircle.active c).

(** The answer of the gap test of line 336 for a world angle [theta]. *)
Definition angle_in_gap (c : RotatingArcCircle.t) (theta : R) : bool :=
  angle_in_range theta (fst (RotatingArcCircle.get_gap_angles c))
                 (snd (RotatingArcCircle.get_gap_angles c)).

(** ** Command-line helpers *)

Module Args.
Import String Ascii.

(** The built-ins the helpers call: [int], [float] and [str.strip]. *)
Record Builtins : Type := mkBuiltins {
  py_int : string -> option Z;
  py_float : string -> option R;
  strip : string -> string
}.

(** [s.split(sep)] for a one-character separator. *)
Fixpoint split_on (sep : ascii) (s : string) : list string :=
  match s with
  | EmptyString => [EmptyString]
  | String c s' =>
      if Ascii.eqb c sep then EmptyString :: split_on sep s'
      else match split_on sep s' with
           | [] => [String c EmptyString]
           | h :: t => String c h :: t
           end
  end.

(** The number of occurrences of [sep] in [s]. *)
Fixpoint count_char (sep : ascii) (s : string) : nat :=
  match s with
  | EmptyString => O
  | String c s' => (if Ascii.eqb c sep then 1 else 0) + count_char sep s'
  end.

(** [sep in s]. *)
Fixpoint contains (sep : ascii) (s : string) : bool :=
  match s with
  | EmptyString => false
  | String c s' => Ascii.eqb c sep || contains sep s'
  end.

Definition parse_color (env : Builtins) (s : string) : list Z :=
  match sequence (map (fun x => py_int env (strip env x)) (split_on "," s)) with
  | Some t => t
  | None => [255; 255; 255]%Z
  end.

(** [None] is a ValueError of [float] or a ZeroDivisionError. *)
Definition parse_aspect_ratio (env : Builtins) (s : string) : option R :=
  if contains ":" s then
    let parts := split_on ":" s in
    match py_get parts 0, py_get parts 1 with
    | Some p0, Some p1 =>
        match py_float env p0, py_float env p1 with
        | Some x, Some y => if Req_dec_T y 0 then None else Some (x / y)
        | _, _ => None
        end
    | _, _ => None
    end
  else py_float env s.

(** A reader of decimal digits, to try the helpers on: [None] on the empty
    string and on any other character. *)
Definition digit_value (c : ascii) : option Z :=
  let n := nat_of_ascii c in
  if ((48 <=? n) && (n <=? 57))%nat then Some (Z.of_nat n - 48)%Z else None.

Fixpoint read_digits (acc : Z) (s : string) : option Z :=
  match s with
  | EmptyString => Some acc
  | String c s' =>
      match digit_value c with
      | None => None
      | Some d => read_digits (10 * acc + d)%Z s'
      end
  end.

Definition sample_builtins : Builtins :=
  mkBuiltins
    (fun s => match s with EmptyString => None | _ => read_digits 0 s end)
    (fun s => match s with
              | EmptyString => None
              | _ => option_map IZR (read_digits 0 s)
              end)
    (fun s => s).

End Args.
(** ** Basic facts about the numeric helpers *)

Lemma Rltb_true (x y : R) : Rltb x y = true <-> x < y.
Proof. unfold Rltb; destruct (Rlt_dec x y); split; intros; try easy. Qed.

Lemma Rltb_false (x y : R) : Rltb x y = false <-> y <= x.
Proof.
  unfold Rltb; destruct (Rlt_dec x y); split; intros; try easy; lra.
Qed.

Lemma Rleb_true (x y : R) : Rleb x y = true <-> x <= y.
Proof. unfold Rleb; destruct (Rle_dec x y); split; intros; try easy. Qed.

Lemma Rleb_false (x y : R) : Rleb x y = false <-> y < x.
Proof.
  unfold Rleb; destruct (Rle_dec x y); split; intros; try easy; lra.
Qed.

Lemma TWO_PI_pos : 0 < TWO_PI.
Proof. unfold TWO_PI; pose proof PI_RGT_0; lra. Qed.

Lemma Int_part_bounds (x : R) : IZR (Int_part x) <= x < IZR (Int_part x) + 1.
Proof.
  unfold Int_part; rewrite minus_IZR; destruct (archimed x); simpl; lra.
Qed.

Lemma Int_part_unique (x : R) (k : Z) :
  IZR k <= x < IZR k + 1 -> Int_part x = k.
Proof. intros H; symmetry; apply Int_part_spec; lra. Qed.

Lemma py_fmod_bounds (x m : R) : 0 < m -> 0 <= py_fmod x m < m.
Proof.
  intros Hm; unfold py_fmod.
  pose proof (Int_part_bounds (x / m)) as [Hlo Hhi].
  assert (Hx : x = x / m * m) by (field; lra).
  split.
  - apply (Rmult_le_compat_r m) in Hlo; lra.
  - apply (Rmult_lt_compat_r m) in Hhi; lra.
Qed.

Lemma py_fmod_unique (x m r : R) (k : Z) :
  0 < m -> 0 <= r < m -> x = r + IZR k * m -> py_fmod x m = r.
Proof.
  intros Hm Hr Hx; unfold py_fmod.
  assert (Hk : Int_part (x / m) = k).
  { apply Int_part_unique.
    assert (Hq : x / m = r / m + IZR k) by (subst x; field; lra).
    rewrite Hq.
    assert (0 <= r / m) by (apply Rmult_le_pos; [lra|left; apply Rinv_0_lt_compat; lra]).
    assert (r / m < 1).
    { apply (Rmult_lt_reg_r m); [lra|]. replace (r / m * m) with r by (field; lra). lra. }
    lra. }
  rewrite Hk; lra.
Qed.

Lemma py_fmod_small (x m : R) : 0 <= x < m -> py_fmod x m = x.
Proof.
  intros Hx; apply (py_fmod_unique x m x 0); lra.
Qed.

Lemma py_fmod_period (x m : R) (k : Z) :
  0 < m -> py_fmod (x + IZR k * m) m = py_fmod x m.
Proof.
  intros Hm.
  apply (py_fmod_unique _ m _ (Int_part (x / m) + k)).
  - exact Hm.
  - apply py_fmod_bounds; exact Hm.
  - unfold py_fmod; rewrite plus_IZR; lra.
Qed.


Lemma PI_bounds : 3 < PI <= 4.
Proof. pose proof PI2_3_2; pose proof PI_4; lra. Qed.

Lemma angle_in_range_reduced (a s e : R) :
  0 <= a < TWO_PI -> 0 <= s < TWO_PI -> 0 <= e < TWO_PI ->
  angle_in_range a s e = true <->
  (s < e /\ s <= a <= e) \/ (e <= s /\ (s <= a \/ a <= e)).
Proof.
  intros Ha Hs He; unfold angle_in_range.
  rewrite !py_fmod_small by assumption.
  destruct (Rltb s e) eqn:Hse.
  - apply Rltb_true in Hse.
    rewrite andb_true_iff, !Rleb_true. split; [intros; left; tauto|].
    intros [[_ H]|[H _]]; [exact H | lra].
  - apply Rltb_false in Hse.
    rewrite orb_true_iff, !Rleb_true. split; [intros; right; tauto|].
    intros [[H _]|[_ H]]; [lra | exact H].
Qed.

(** ** Lists and Python indexing *)

Lemma list_set_length {A : Type} (l : list A) (n : nat) (x : A) :
  length (list_set l n x) = length l.
Proof.
  revert n; induction l as [|h t IH]; intros [|n]; simpl; auto.
Qed.

Lemma nth_error_list_set {A : Type} (l : list A) (n i : nat) (x y : A) :
  nth_error l i = Some y ->
  nth_error (list_set l n x) i = Some (if Nat.eqb i n then x else y).
Proof.
  revert n i; induction l as [|h t IH]; intros n i H.
  - destruct i; discriminate.
  - destruct n, i; simpl in *; auto.
Qed.

Lemma py_get_nonneg {A : Type} (l : list A) (i : Z) :
  (0 <= i)%Z -> py_get l i = nth_error l (Z.to_nat i).
Proof.
  intros H; unfold py_get.
  destruct (0 <=? i)%Z eqn:E; [reflexivity|]. apply Z.leb_gt in E; lia.
Qed.

Lemma py_pos_nonneg {A : Type} (l : list A) (i : Z) :
  (0 <= i)%Z -> py_pos l i = Z.to_nat i.
Proof.
  intros H; unfold py_pos.
  destruct (0 <=? i)%Z eqn:E; [reflexivity|]. apply Z.leb_gt in E; lia.
Qed.

Lemma nth_error_in_bounds {A : Type} (l : list A) (n : nat) :
  (n < length l)%nat -> exists x, nth_error l n = Some x.
Proof.
  intros H. destruct (nth_error l n) eqn:E; [eauto|].
  apply nth_error_None in E; lia.
Qed.

Lemma find_first {A : Type} (f : A -> bool) (l1 l2 : list A) (x : A) :
  (forall y, In y l1 -> f y = false) -> f x = true ->
  find f (l1 ++ x :: l2) = Some x.
Proof.
  intros H1 Hx; induction l1 as [|h t IH]; simpl.
  - rewrite Hx; reflexivity.
  - rewrite (H1 h) by (left; reflexivity). apply IH.
    intros y Hy; apply H1; right; exact Hy.
Qed.

Lemma find_split {A : Type} (f : A -> bool) (l : list A) (x : A) :
  find f l = Some x ->
  exists l1 l2, l = l1 ++ x :: l2 /\ (forall y, In y l1 -> f y = false) /\ f x = true.
Proof.
  induction l as [|h t IH]; simpl; [discriminate|].
  destruct (f h) eqn:E.
  - intros [= ->]. exists [], t. simpl; repeat split; auto. intros y [].
  - intros H; destruct (IH H) as (l1 & l2 & -> & Hl1 & Hx).
    exists (h :: l1), l2; repeat split; auto.
    intros y [<-|Hy]; auto.
Qed.

Lemma find_none_all {A : Type} (f : A -> bool) (l : list A) :
  find f l = None -> forall y, In y l -> f y = false.
Proof.
  intros H y Hy. apply (find_none f l H y Hy).
Qed.

Lemma fold_max_acc (l : list Z) (a e : Z) :
  fold_right Z.max (Z.max a e) l = Z.max e (fold_right Z.max a l).
Proof.
  induction l as [|h t IH]; simpl; [lia|]. rewrite IH; lia.
Qed.

Lemma fold_max_ge (l : list Z) (a : Z) : (a <= fold_right Z.max a l)%Z.
Proof. induction l as [|h t IH]; simpl; lia. Qed.

(** ** Radial quantities *)

Lemma radial_sq_nonneg (cfg : Config) (b : Ball.t) :
  0 <= radial_dx cfg b * radial_dx cfg b + radial_dy cfg b * radial_dy cfg b.
Proof. nra. Qed.

Lemma radial_length_zero (cfg : Config) (b : Ball.t) :
  radial_length cfg b = 0 <-> radial_dx cfg b = 0 /\ radial_dy cfg b = 0.
Proof.
  unfold radial_length; split.
  - intros H. apply sqrt_eq_0 in H; [|apply radial_sq_nonneg]. nra.
  - intros [-> ->]. rewrite Rmult_0_l, Rplus_0_l. apply sqrt_0.
Qed.

Lemma radial_length_nonneg (cfg : Config) (b : Ball.t) : 0 <= radial_length cfg b.
Proof. apply sqrt_pos. Qed.

Lemma radial_length_on_axis (cfg : Config) (b : Ball.t) :
  radial_dy cfg b = 0 -> 0 <= radial_dx cfg b ->
  radial_length cfg b = radial_dx cfg b.
Proof.
  intros Hy Hx; unfold radial_length. rewrite Hy, Rmult_0_l, Rplus_0_r.
  apply sqrt_square; exact Hx.
Qed.

Lemma nonzero_radial_length (cfg : Config) (b : Ball.t) :
  Rltb 0 (radial_length cfg b) = nonzero_radial cfg b.
Proof.
  unfold nonzero_radial.
  destruct (Req_dec_T (radial_dx cfg b) 0) as [Hx|Hx];
    [destruct (Req_dec_T (radial_dy cfg b) 0) as [Hy|Hy]|].
  - apply Rltb_false. right. apply radial_length_zero; auto.
  - apply Rltb_true. pose proof (radial_length_nonneg cfg b).
    destruct (Req_dec (radial_length cfg b) 0) as [H0|H0]; [|lra].
    apply radial_length_zero in H0; tauto.
  - apply Rltb_true. pose proof (radial_length_nonneg cfg b).
    destruct (Req_dec (radial_length cfg b) 0) as [H0|H0]; [|lra].
    apply radial_length_zero in H0; tauto.
Qed.

(** ** The escape scan computes the specification's maximum *)

Lemma escape_step_spec (cfg : Config) (b : Ball.t) (m : Z) :
  ball_radius cfg <> 0 ->
  escape_step cfg b m =
  Some (if nonzero_radial cfg b && Rltb 0 (radial_dot cfg b)
        then Z.max m (spec_escape_index cfg b) else m).
Proof.
  intros Hr; unfold escape_step. rewrite nonzero_radial_length.
  destruct (nonzero_radial cfg b && Rltb 0 (radial_dot cfg b)); [|reflexivity].
  unfold py_floordiv, radius_increment.
  destruct (Req_dec_T (ball_radius cfg) 0) as [E|_]; [contradiction|].
  fold (radius_increment cfg). fold (spec_escape_index cfg b).
  destruct (spec_escape_index cfg b >? m)%Z eqn:G; f_equal.
  - apply Z.gtb_lt in G; lia.
  - rewrite Z.gtb_ltb in G; apply Z.ltb_ge in G; lia.
Qed.

Lemma escape_scan_spec (cfg : Config) (bs : list Ball.t) (a : Z) :
  ball_radius cfg <> 0 ->
  escape_scan cfg bs a = Some (spec_max_escape_index cfg bs a).
Proof.
  intros Hr; revert a; induction bs as [|b bs IH]; intros a; simpl.
  - reflexivity.
  - rewrite (escape_step_spec cfg b a Hr), IH. f_equal.
    unfold spec_max_escape_index; simpl.
    destruct (nonzero_radial cfg b && Rltb 0 (radial_dot cfg b)); simpl.
    + rewrite fold_max_acc; reflexivity.
    + reflexivity.
Qed.

Lemma spec_max_ge (cfg : Config) (bs : list Ball.t) (a : Z) :
  (a <= spec_max_escape_index cfg bs a)%Z.
Proof. apply fold_max_ge. Qed.

(** ** [angle_in_range] on the sample values of the specification *)

Lemma angle_in_range_small (a s e : R) :
  0 <= a < 6 -> 0 <= s < 6 -> 0 <= e < 6 ->
  angle_in_range a s e
  = if Rltb s e then Rleb s a && Rleb a e else Rleb s a || Rleb a e.
Proof.
  intros Ha Hs He. pose proof PI_bounds. unfold angle_in_range.
  rewrite !py_fmod_small by (unfold TWO_PI; lra). reflexivity.
Qed.

Example angle_in_range_inside : angle_in_range 1 (1 / 2) (3 / 2) = true.
Proof.
  rewrite angle_in_range_small by lra.
  replace (Rltb (1 / 2) (3 / 2)) with true by (symmetry; apply Rltb_true; lra).
  apply andb_true_iff; split; apply Rleb_true; lra.
Qed.

Example angle_in_range_outside : angle_in_range (16 / 10) (1 / 2) (3 / 2) = false.
Proof.
  rewrite angle_in_range_small by lra.
  replace (Rltb (1 / 2) (3 / 2)) with true by (symmetry; apply Rltb_true; lra).
  apply andb_false_iff; right; apply Rleb_false; lra.
Qed.

Example angle_in_range_wrap_inside : angle_in_range 6 (55 / 10) 1 = true.
Proof.
  pose proof PI_bounds. unfold angle_in_range.
  rewrite !py_fmod_small by (unfold TWO_PI; lra).
  replace (Rltb (55 / 10) 1) with false by (symmetry; apply Rltb_false; lra).
  apply orb_true_iff; left; apply Rleb_true; lra.
Qed.

Example angle_in_range_wrap_outside : angle_in_range 3 (55 / 10) 1 = false.
Proof.
  rewrite angle_in_range_small by lra.
  replace (Rltb (55 / 10) 1) with false by (symmetry; apply Rltb_false; lra).
  apply orb_false_iff; split; apply Rleb_false; lra.
Qed.

(** ** Ring destruction *)

Lemma remove_inactive (c : RotatingArcCircle.t) :
  RotatingArcCircle.active c = false -> RotatingArcCircle.remove c = c.
Proof. destruct c; simpl; intros ->; reflexivity. Qed.

Lemma vanish_circles (cfg : Config) (pos : nat) (c : RotatingArcCircle.t) (st : State) :
  circles (vanish cfg pos c st) = list_set (circles st) pos (RotatingArcCircle.remove c).
Proof. unfold vanish; destruct (sounds_loaded cfg); reflexivity. Qed.

Lemma vanish_balls (cfg : Config) (pos : nat) (c : RotatingArcCircle.t) (st : State) :
  balls (vanish cfg pos c st) = balls st.
Proof. unfold vanish; destruct (sounds_loaded cfg); reflexivity. Qed.

Lemma vanish_active_circle_index (cfg : Config) (pos : nat)
      (c : RotatingArcCircle.t) (st : State) :
  active_circle_index (vanish cfg pos c st) = active_circle_index st.
Proof. unfold vanish; destruct (sounds_loaded cfg); reflexivity. Qed.

Lemma vanish_frame (cfg : Config) (pos : nat) (c : RotatingArcCircle.t) (st : State) :
  ball_hits (vanish cfg pos c st) = ball_hits st
  /\ time_left (vanish cfg pos c st) = time_left st
  /\ running (vanish cfg pos c st) = running st
  /\ game_won (vanish cfg pos c st) = game_won st.
Proof. unfold vanish; destruct (sounds_loaded cfg); repeat split. Qed.

Lemma skip_loop_spec (cfg : Config) (n : nat) :
  forall (lo : Z) (st : State),
    (0 <= lo)%Z -> (lo + Z.of_nat n <= len_circles st)%Z ->
    exists st',
      skip_loop cfg (range_from lo n) st = Some st'
      /\ balls st' = balls st
      /\ active_circle_index st' = active_circle_index st
      /\ time_left st' = time_left st
      /\ game_won st' = game_won st
      /\ length (circles st') = length (circles st)
      /\ (forall i c, nth_error (circles st) i = Some c ->
                      nth_error (circles st') i
                      = Some (after_skip lo (lo + Z.of_nat n) i c)).
Proof.
  induction n as [|n IH]; intros lo st Hlo Hhi.
  - exists st; simpl; repeat split; auto.
    intros i c Hc; rewrite Hc; f_equal; unfold after_skip.
    destruct (_ && _) eqn:E; [|reflexivity].
    apply andb_true_iff in E; destruct E as [E1 E2].
    apply Z.leb_le in E1; apply Z.ltb_lt in E2; lia.
  - unfold len_circles in Hhi. simpl range_from. cbn [skip_loop].
    rewrite py_get_nonneg, py_pos_nonneg by exact Hlo.
    destruct (nth_error_in_bounds (circles st) (Z.to_nat lo)) as [c0 Hc0]; [lia|].
    rewrite Hc0.
    set (st1 := if RotatingArcCircle.active c0
                then vanish cfg (Z.to_nat lo) c0 st else st).
    assert (Hcs : circles st1
                  = list_set (circles st) (Z.to_nat lo) (RotatingArcCircle.remove c0)).
    { subst st1; destruct (RotatingArcCircle.active c0) eqn:Ea.
      - apply vanish_circles.
      - rewrite (remove_inactive c0 Ea).
        clear - Hc0. revert Hc0. generalize (Z.to_nat lo) as k.
        induction (circles st) as [|h t IHt]; intros [|k] H; simpl in *;
          try discriminate; [congruence|]. f_equal; apply IHt; exact H. }
    assert (Hlen : length (circles st1) = length (circles st))
      by (rewrite Hcs; apply list_set_length).
    destruct (IH (lo + 1)%Z st1) as (st' & Hrun & Hb & Ha & Ht & Hg & Hl & Hnth).
    { lia. } { unfold len_circles; rewrite Hlen; lia. }
    exists st'.
    assert (Hsame : balls st1 = balls st
                    /\ active_circle_index st1 = active_circle_index st
                    /\ time_left st1 = time_left st /\ game_won st1 = game_won st).
    { subst st1; destruct (RotatingArcCircle.active c0); [|tauto].
      rewrite vanish_balls, vanish_active_circle_index.
      destruct (vanish_frame cfg (Z.to_nat lo) c0 st) as (_ & H2 & _ & H4); auto. }
    destruct Hsame as (Hb1 & Ha1 & Ht1 & Hg1).
    split; [|repeat split; try congruence].
    + subst st1; destruct (RotatingArcCircle.active c0); exact Hrun.
    + intros i c Hc.
      pose proof (nth_error_list_set (circles st) (Z.to_nat lo) i
                    (RotatingArcCircle.remove c0) c Hc) as Hset.
      rewrite <- Hcs in Hset. rewrite (Hnth i _ Hset). f_equal.
      unfold after_skip.
      destruct (Nat.eqb i (Z.to_nat lo)) eqn:Ei.
      * apply Nat.eqb_eq in Ei; subst i. rewrite Z2Nat.id by exact Hlo.
        assert (c = c0) by congruence; subst c.
        replace (lo + 1 <=? lo)%Z with false by (symmetry; apply Z.leb_gt; lia).
        replace (lo <=? lo)%Z with true by (symmetry; apply Z.leb_le; lia).
        replace (lo <? lo + Z.of_nat (S n))%Z with true
          by (symmetry; apply Z.ltb_lt; lia).
        reflexivity.
      * apply Nat.eqb_neq in Ei.
        replace (lo + 1 + Z.of_nat n)%Z with (lo + Z.of_nat (S n))%Z by lia.
        replace (lo + 1 <=? Z.of_nat i)%Z with (lo <=? Z.of_nat i)%Z; [reflexivity|].
        destruct (lo <=? Z.of_nat i)%Z eqn:E1; symmetry.
        -- apply Z.leb_le in E1; apply Z.leb_le; lia.
        -- apply Z.leb_gt in E1; apply Z.leb_gt; lia.
Qed.

(** The skip branch of [ring_manager]. *)
Lemma ring_manager_skip (cfg : Config) (st : State) :
  ball_radius cfg <> 0 -> (0 <= active_circle_index st)%Z ->
  (spec_max_escape_index cfg (balls st) (active_circle_index st)
   > active_circle_index st)%Z ->
  exists st',
    ring_manager cfg st = Some st'
    /\ active_circle_index st'
       = spec_max_escape_index cfg (balls st) (active_circle_index st)
    /\ balls st' = balls st
    /\ time_left st' = time_left st
    /\ game_won st' = game_won st
    /\ length (circles st') = length (circles st)
    /\ (forall i c, nth_error (circles st) i = Some c ->
          nth_error (circles st') i
          = Some (after_skip (active_circle_index st)
                    (Z.min (spec_max_escape_index cfg (balls st) (active_circle_index st))
                           (len_circles st)) i c)).
Proof.
  intros Hr Ha Hm. unfold ring_manager.
  rewrite (escape_scan_spec cfg _ _ Hr).
  set (m := spec_max_escape_index cfg (balls st) (active_circle_index st)) in *.
  replace (m >? active_circle_index st)%Z with true
    by (symmetry; apply Z.gtb_lt; lia).
  unfold py_range.
  set (hi := Z.min m (len_circles st)).
  destruct (Z_le_gt_dec (active_circle_index st) hi) as [Hle|Hgt].
  - destruct (skip_loop_spec cfg (Z.to_nat (hi - active_circle_index st))
                (active_circle_index st) st Ha)
      as (st' & Hrun & Hb & Hai & Ht & Hg & Hl & Hnth).
    { rewrite Z2Nat.id by lia. subst hi; lia. }
    rewrite Hrun. eexists; split; [reflexivity|]. simpl.
    repeat split; auto.
    intros i c Hc. rewrite (Hnth i c Hc). rewrite Z2Nat.id by lia.
    do 2 f_equal; lia.
  - replace (Z.to_nat (hi - active_circle_index st)) with O by lia. simpl.
    eexists; split; [reflexivity|]. simpl. repeat split; auto.
    intros i c Hc. rewrite Hc. f_equal. unfold after_skip.
    destruct (_ && _) eqn:E; [|reflexivity].
    apply andb_true_iff in E; destruct E as [E1 E2].
    apply Z.leb_le in E1; apply Z.ltb_lt in E2; lia.
Qed.

(** ** The precise breach test *)

Lemma get_gap_angles_bounds (c : RotatingArcCircle.t) :
  0 <= fst (RotatingArcCircle.get_gap_angles c) < TWO_PI
  /\ 0 <= snd (RotatingArcCircle.get_gap_angles c) < TWO_PI.
Proof.
  unfold RotatingArcCircle.get_gap_angles; simpl.
  split; apply py_fmod_bounds, TWO_PI_pos.
Qed.

Lemma breach_test_true (cfg : Config) (c : RotatingArcCircle.t) (b : Ball.t) :
  breach_test cfg c b = true <-> breaches cfg c b.
Proof.
  unfold breach_test, breaches, in_gap, ball_angle.
  destruct (get_gap_angles_bounds c) as [Hs He].
  destruct (RotatingArcCircle.get_gap_angles c) as [gs ge]; simpl in *.
  rewrite !andb_true_iff, Rleb_true, Rltb_true.
  rewrite (angle_in_range_reduced _ gs ge
             (py_fmod_bounds _ _ TWO_PI_pos) Hs He).
  tauto.
Qed.

Lemma breach_test_false (cfg : Config) (c : RotatingArcCircle.t) (b : Ball.t) :
  breach_test cfg c b = false <-> ~ breaches cfg c b.
Proof.
  rewrite <- breach_test_true. destruct (breach_test cfg c b); split; congruence.
Qed.

Lemma precise_breach_idle (cfg : Config) (st : State) :
  (0 <= active_circle_index st)%Z ->
  (forall c, target_ring st = Some c ->
             forall b, In b (balls st) -> ~ breaches cfg c b) ->
  precise_breach cfg st = Some st.
Proof.
  intros Ha Hno. unfold precise_breach, target_ring in *.
  destruct (active_circle_index st <? len_circles st)%Z eqn:Elt; [|reflexivity].
  rewrite py_get_nonneg by exact Ha.
  apply Z.ltb_lt in Elt; unfold len_circles in Elt.
  destruct (nth_error_in_bounds (circles st) (Z.to_nat (active_circle_index st)))
    as [c Hc]; [lia|].
  rewrite Hc in *. destruct (RotatingArcCircle.active c); [|reflexivity].
  destruct (find (breach_test cfg c) (balls st)) as [b|] eqn:Ef; [|reflexivity].
  exfalso. pose proof (find_some _ _ Ef) as [Hin Hb].
  apply (Hno c eq_refl b Hin). apply breach_test_true; exact Hb.
Qed.

Lemma precise_breach_fires (cfg : Config) (st : State)
      (c : RotatingArcCircle.t) (b : Ball.t) :
  (0 <= active_circle_index st)%Z ->
  target_ring st = Some c -> In b (balls st) -> breaches cfg c b ->
  exists st' l1 b1 l2,
    precise_breach cfg st = Some st'
    /\ balls st = l1 ++ b1 :: l2
    /\ (forall b', In b' l1 -> ~ breaches cfg c b')
    /\ breaches cfg c b1
    /\ circles st' = list_set (circles st) (Z.to_nat (active_circle_index st))
                              (RotatingArcCircle.remove c)
    /\ active_circle_index st' = (active_circle_index st + 1)%Z
    /\ balls st' = map speed_up (balls st)
    /\ time_left st' = time_left st
    /\ game_won st' = game_won st.
Proof.
  intros Ha Ht Hin Hb. unfold precise_breach, target_ring in *.
  destruct (active_circle_index st <? len_circles st)%Z; [|discriminate].
  rewrite py_get_nonneg, py_pos_nonneg by exact Ha.
  destruct (nth_error (circles st) (Z.to_nat (active_circle_index st)))
    as [c'|]; [|discriminate].
  destruct (RotatingArcCircle.active c') eqn:Eact; [|discriminate].
  injection Ht as ->.
  destruct (find (breach_test cfg c) (balls st)) as [b1|] eqn:Ef.
  - destruct (find_split _ _ _ Ef) as (l1 & l2 & Hsplit & Hl1 & Hb1).
    eexists; exists l1, b1, l2. split; [reflexivity|].
    split; [exact Hsplit|]. split.
    { intros b' Hb'; apply breach_test_false, Hl1, Hb'. }
    split; [apply breach_test_true; exact Hb1|].
    destruct (vanish_frame cfg (Z.to_nat (active_circle_index st)) c st)
      as (_ & H2 & _ & H4).
    cbn -[vanish]. rewrite vanish_circles, vanish_active_circle_index, vanish_balls.
    repeat split; auto.
  - exfalso. pose proof (find_none_all _ _ Ef b Hin) as Hf.
    apply breach_test_false in Hf; contradiction.
Qed.

Lemma ring_manager_no_skip (cfg : Config) (st : State) :
  ball_radius cfg <> 0 ->
  (spec_max_escape_index cfg (balls st) (active_circle_index st)
   <= active_circle_index st)%Z ->
  ring_manager cfg st = precise_breach cfg st.
Proof.
  intros Hr Hm. unfold ring_manager. rewrite (escape_scan_spec cfg _ _ Hr).
  replace (_ >? _)%Z with false; [reflexivity|].
  symmetry. rewrite Z.gtb_ltb. apply Z.ltb_ge; exact Hm.
Qed.

(** ** Setup *)

Lemma range_from_length (lo : Z) (n : nat) : length (range_from lo n) = n.
Proof. revert lo; induction n; intros; simpl; auto. Qed.

Lemma range_from_nth (n : nat) :
  forall (lo : Z) (i : nat),
    (i < n)%nat -> nth_error (range_from lo n) i = Some (lo + Z.of_nat i)%Z.
Proof.
  induction n as [|n IH]; intros lo i Hi; [lia|].
  destruct i as [|i]; simpl.
  - f_equal; lia.
  - rewrite IH by lia. f_equal; lia.
Qed.

Lemma range_from_In (n : nat) :
  forall (lo x : Z), In x (range_from lo n) -> (lo <= x < lo + Z.of_nat n)%Z.
Proof.
  induction n as [|n IH]; intros lo x H; simpl in H; [contradiction|].
  destruct H as [<-|H]; [lia|]. apply IH in H; lia.
Qed.

Lemma sequence_map_some {A B : Type} (f : A -> option B) (g : A -> B) (l : list A) :
  (forall x, In x l -> f x = Some (g x)) -> sequence (map f l) = Some (map g l).
Proof.
  induction l as [|h t IH]; intros H; simpl; [reflexivity|].
  rewrite (H h) by (left; reflexivity).
  rewrite IH by (intros x Hx; apply H; right; exact Hx). reflexivity.
Qed.

Lemma on_circle (r a : R) : (r * cos a) * (r * cos a) + (r * sin a) * (r * sin a) = r * r.
Proof.
  pose proof (sin2_cos2 a) as H. unfold Rsqr in H.
  replace (r * cos a * (r * cos a) + r * sin a * (r * sin a))
    with (r * r * (sin a * sin a + cos a * cos a)) by ring.
  rewrite H; ring.
Qed.

Lemma arc_points_positive (radius arc_start arc_length : R) (segments : Z) :
  (0 < segments)%Z ->
  exists points segs,
    arc_points radius arc_start arc_length segments = Some points
    /\ arc_segments points segments = Some segs
    /\ length points = S (Z.to_nat segments)
    /\ length segs = Z.to_nat segments
    /\ (forall p, In p points -> fst p * fst p + snd p * snd p = radius * radius)
    /\ nth_error points 0 = Some (radius * cos arc_start, radius * sin arc_start)
    /\ nth_error points (Z.to_nat segments)
       = Some (radius * cos (arc_start + arc_length),
               radius * sin (arc_start + arc_length))
    /\ (forall i, (i < Z.to_nat segments)%nat ->
                  exists p q, nth_error points i = Some p
                              /\ nth_error points (S i) = Some q
                              /\ nth_error segs i = Some (p, q)).
Proof.
  intros Hs.
  set (g := arc_point_at radius arc_start arc_length segments).
  assert (Hpts : arc_points radius arc_start arc_length segments
                 = Some (map g (py_range 0 (segments + 1)))).
  { unfold arc_points. apply sequence_map_some. intros i _. unfold arc_point.
    replace (segments =? 0)%Z with false by (symmetry; apply Z.eqb_neq; lia).
    reflexivity. }
  assert (Hrange : py_range 0 (segments + 1) = range_from 0 (S (Z.to_nat segments))).
  { unfold py_range. f_equal. lia. }
  assert (Hnth : forall i, (i <= Z.to_nat segments)%nat ->
                           nth_error (map g (py_range 0 (segments + 1))) i
                           = Some (g (Z.of_nat i))).
  { intros i Hi. rewrite nth_error_map, Hrange, range_from_nth by lia.
    simpl. reflexivity. }
  set (points := map g (py_range 0 (segments + 1))) in *.
  set (h := fun i : Z => (g i, g (i + 1)%Z)).
  assert (Hsegs : arc_segments points segments = Some (map h (py_range 0 segments))).
  { unfold arc_segments. apply sequence_map_some. intros i Hi.
    unfold py_range in Hi. apply range_from_In in Hi.
    rewrite !py_get_nonneg by lia.
    rewrite (Hnth (Z.to_nat i)), (Hnth (Z.to_nat (i + 1))) by lia.
    rewrite !Z2Nat.id by lia. reflexivity. }
  exists points, (map h (py_range 0 segments)).
  split; [exact Hpts|]. split; [exact Hsegs|].
  split; [subst points; rewrite length_map, Hrange, range_from_length; reflexivity|].
  split; [rewrite length_map; unfold py_range; rewrite range_from_length; lia|].
  split; [|split; [|split]].
  - intros p Hp. subst points. apply in_map_iff in Hp.
    destruct Hp as (i & <- & _). apply on_circle.
  - rewrite (Hnth 0%nat) by lia. subst g; unfold arc_point_at; simpl.
    replace (arc_start + arc_length * 0 / IZR segments) with arc_start
      by (field; apply not_0_IZR; lia).
    reflexivity.
  - rewrite (Hnth (Z.to_nat segments)) by lia. rewrite Z2Nat.id by lia.
    subst g; unfold arc_point_at.
    replace (arc_start + arc_length * IZR segments / IZR segments)
      with (arc_start + arc_length) by (field; apply not_0_IZR; lia).
    reflexivity.
  - intros i Hi. exists (g (Z.of_nat i)), (g (Z.of_nat (S i))).
    rewrite (Hnth i), (Hnth (S i)) by lia. split; [reflexivity|].
    split; [reflexivity|].
    rewrite nth_error_map. unfold py_range. rewrite range_from_nth by lia.
    simpl. subst h; simpl. do 3 f_equal; lia.
Qed.


Lemma arc_points_negative (radius arc_start arc_length : R) (n : positive) :
  arc_points radius arc_start arc_length (Z.neg n) = Some []
  /\ arc_segments [] (Z.neg n) = Some [].
Proof.
  unfold arc_points, arc_segments, py_range.
  replace (Z.to_nat (Z.neg n + 1 - 0)) with O by lia.
  replace (Z.to_nat (Z.neg n - 0)) with O by lia.
  split; reflexivity.
Qed.

(** The constructor of an arc raises exactly for zero segments. *)
Lemma new_arc_spec (radius arc_start arc_length angular_velocity : R) (segments : Z) :
  new_arc radius arc_start arc_length angular_velocity segments
  = if (segments =? 0)%Z then None
    else Some (RotatingArcCircle.mk radius arc_start arc_length angular_velocity 0 true).
Proof.
  unfold new_arc. destruct segments as [|p|p].
  - reflexivity.
  - destruct (arc_points_positive radius arc_start arc_length (Z.pos p))
      as (points & segs & Hp & Hs & _); [lia|].
    rewrite Hp, Hs. reflexivity.
  - destruct (arc_points_negative radius arc_start arc_length p) as [Hp Hs].
    rewrite Hp, Hs. reflexivity.
Qed.

Lemma create_circles_some (cfg : Config) (n : nat) :
  arc_smoothness cfg <> 0%Z ->
  forall i cur, exists cs, create_circles cfg n i cur = Some cs.
Proof.
  intros Hs. induction n as [|n IH]; intros i cur; cbn [create_circles].
  - eauto.
  - rewrite new_arc_spec.
    replace (arc_smoothness cfg =? 0)%Z with false
      by (symmetry; apply Z.eqb_neq; exact Hs).
    destruct (IH (S i) (S (S (S (S cur))))) as [cs Hcs]. rewrite Hcs. eauto.
Qed.

Lemma create_circles_raises (cfg : Config) (n i cur : nat) :
  arc_smoothness cfg = 0%Z -> create_circles cfg (S n) i cur = None.
Proof.
  intros Hs. cbn [create_circles]. rewrite new_arc_spec, Hs. reflexivity.
Qed.

Lemma create_circles_length (cfg : Config) (n : nat) :
  forall i cur cs, create_circles cfg n i cur = Some cs -> length cs = n.
Proof.
  induction n as [|n IH]; intros i cur cs H; cbn [create_circles] in H.
  - injection H as <-; reflexivity.
  - destruct (new_arc _ _ _ _ _) as [c|]; [|discriminate].
    destruct (create_circles cfg n (S i) (S (S (S (S cur))))) as [cs'|] eqn:E;
      [|discriminate].
    injection H as <-. simpl. rewrite (IH _ _ _ E). reflexivity.
Qed.

Lemma create_circles_nth (cfg : Config) (n : nat) :
  forall i cur cs k c,
    create_circles cfg n i cur = Some cs ->
    nth_error cs k = Some c ->
    exists u1 u2 u3 u4,
      c = RotatingArcCircle.mk
            (base_radius_val cfg + INR (i + k) * radius_increment cfg)
            (uniform (rng cfg) u2 0 (2 * PI))
            (2 * PI * uniform (rng cfg) u1 (8 / 10) (9 / 10))
            (if Rltb (rng cfg u4) (1 / 2)
             then - uniform (rng cfg) u3 (PI / 4) (PI / 2)
             else uniform (rng cfg) u3 (PI / 4) (PI / 2))
            0 true.
Proof.
  induction n as [|n IH]; intros i cur cs k c H Hk; cbn [create_circles] in H.
  - injection H as <-. destruct k; discriminate.
  - rewrite new_arc_spec in H.
    destruct (arc_smoothness cfg =? 0)%Z; [discriminate|].
    destruct (create_circles cfg n (S i) (S (S (S (S cur))))) as [cs'|] eqn:E;
      [|discriminate].
    injection H as <-. destruct k as [|k]; simpl in Hk.
    + injection Hk as <-. rewrite Nat.add_0_r. do 4 eexists. reflexivity.
    + destruct (IH _ _ _ _ _ E Hk) as (u1 & u2 & u3 & u4 & ->).
      replace (S i + k)%nat with (i + S k)%nat by lia. do 4 eexists. reflexivity.
Qed.

Lemma create_balls_length (cfg : Config) (n i cur : nat) :
  length (create_balls cfg n i cur) = n.
Proof. revert i cur; induction n; intros; simpl; auto. Qed.

Lemma initial_state_inv (cfg : Config) (countdown : R) (st0 : State) :
  initial_state cfg countdown = Some st0 ->
  balls st0 = create_balls cfg (Z.to_nat (initial_balls cfg)) 0 0
  /\ create_circles cfg (Z.to_nat (num_arcs cfg)) 0 (Z.to_nat (initial_balls cfg))
     = Some (circles st0)
  /\ active_circle_index st0 = 0%Z
  /\ particles st0 = []
  /\ ball_hits st0 = 0%Z
  /\ time_left st0 = countdown
  /\ running st0 = true
  /\ game_won st0 = None.
Proof.
  unfold initial_state.
  destruct (create_circles cfg _ 0 _) as [cs|]; [|discriminate].
  intros [= <-]. repeat split.
Qed.

Lemma initial_state_some (cfg : Config) (countdown : R) :
  arc_smoothness cfg <> 0%Z -> exists st0, initial_state cfg countdown = Some st0.
Proof.
  intros Hs. unfold initial_state.
  destruct (create_circles_some cfg (Z.to_nat (num_arcs cfg)) Hs 0%nat
              (Z.to_nat (initial_balls cfg))) as [cs Hcs].
  rewrite Hcs. eauto.
Qed.

Lemma initial_state_raises (cfg : Config) (countdown : R) :
  arc_smoothness cfg = 0%Z -> (0 < num_arcs cfg)%Z ->
  initial_state cfg countdown = None.
Proof.
  intros Hs Hn. unfold initial_state.
  destruct (Z.to_nat (num_arcs cfg)) as [|n] eqn:E; [lia|].
  rewrite (create_circles_raises cfg n 0 _ Hs). reflexivity.
Qed.

(** ** What the loop body leaves alone *)

Lemma skip_loop_frame (cfg : Config) (idxs : list Z) :
  forall st st', skip_loop cfg idxs st = Some st' ->
                 balls st' = balls st
                 /\ active_circle_index st' = active_circle_index st
                 /\ ball_hits st' = ball_hits st.
Proof.
  induction idxs as [|i rest IH]; intros st st' H; simpl in H.
  - injection H as <-; auto.
  - destruct (py_get (circles st) i) as [c|]; [|discriminate].
    destruct (RotatingArcCircle.active c).
    + destruct (IH _ _ H) as (Hb & Ha & Hh).
      rewrite Hb, Ha, Hh, vanish_balls, vanish_active_circle_index.
      destruct (vanish_frame cfg (py_pos (circles st) i) c st) as [Hh' _]; auto.
    + apply IH; exact H.
Qed.

Lemma precise_breach_frame (cfg : Config) (st st' : State) :
  precise_breach cfg st = Some st' ->
  length (balls st') = length (balls st)
  /\ (active_circle_index st <= active_circle_index st')%Z
  /\ ball_hits st' = ball_hits st.
Proof.
  unfold precise_breach.
  destruct (active_circle_index st <? len_circles st)%Z;
    [|intros [= <-]; repeat split; lia].
  destruct (py_get (circles st) (active_circle_index st)) as [c|]; [|discriminate].
  destruct (RotatingArcCircle.active c); [|intros [= <-]; repeat split; lia].
  destruct (find (breach_test cfg c) (balls st)); intros [= <-];
    [|repeat split; lia].
  unfold vanish; destruct (sounds_loaded cfg); simpl; rewrite length_map;
    repeat split; lia.
Qed.

Lemma ring_manager_frame (cfg : Config) (st st' : State) :
  ring_manager cfg st = Some st' ->
  length (balls st') = length (balls st)
  /\ (active_circle_index st <= active_circle_index st')%Z
  /\ ball_hits st' = ball_hits st.
Proof.
  unfold ring_manager.
  destruct (escape_scan cfg (balls st) (active_circle_index st)) as [m|];
    [|discriminate].
  destruct (m >? active_circle_index st)%Z eqn:Em.
  - destruct (skip_loop cfg _ st) as [st1|] eqn:Hs; [|discriminate].
    intros [= <-]. destruct (skip_loop_frame _ _ _ _ Hs) as (Hb & Ha & Hh).
    simpl. rewrite Hb, Hh. apply Z.gtb_lt in Em. repeat split; auto; lia.
  - apply precise_breach_frame.
Qed.

Lemma end_of_round_test_frame (st : State) :
  balls (end_of_round_test st) = balls st
  /\ active_circle_index (end_of_round_test st) = active_circle_index st
  /\ ball_hits (end_of_round_test st) = ball_hits st
  /\ particles (end_of_round_test st) = particles st.
Proof.
  unfold end_of_round_test.
  destruct (round_verdict _ _ _); repeat split.
Qed.

Lemma after_step_frame (cfg : Config) (st st' : State) :
  after_step cfg st = Some st' ->
  length (balls st') = length (balls st)
  /\ (active_circle_index st <= active_circle_index st')%Z
  /\ ball_hits st' = ball_hits st.
Proof.
  unfold after_step.
  destruct (ring_manager cfg st) as [st1|] eqn:Hm; [|discriminate].
  intros [= <-].
  destruct (ring_manager_frame _ _ _ Hm) as (Hb & Ha & Hh).
  destruct (end_of_round_test_frame
              (set_particles (particle_pass dt (particles st1)) st1))
    as (Eb & Ea & Eh & _).
  rewrite Eb, Ea, Eh. simpl. auto.
Qed.

Lemma ring_manager_total (cfg : Config) (st : State) :
  ball_radius cfg <> 0 -> (0 <= active_circle_index st)%Z ->
  exists st', ring_manager cfg st = Some st'.
Proof.
  intros Hr Ha.
  destruct (Z_le_gt_dec
              (spec_max_escape_index cfg (balls st) (active_circle_index st))
              (active_circle_index st)) as [Hle|Hgt].
  - rewrite (ring_manager_no_skip cfg st Hr Hle).
    destruct (target_ring st) as [c|] eqn:Ht.
    + destruct (find (breach_test cfg c) (balls st)) as [b|] eqn:Ef.
      * destruct (find_some _ _ Ef) as [Hin Hb]. apply breach_test_true in Hb.
        destruct (precise_breach_fires cfg st c b Ha Ht Hin Hb) as (st' & _ & _ & _ & H & _).
        eauto.
      * exists st. apply precise_breach_idle; [exact Ha|].
        intros c' Hc' b Hin. rewrite Ht in Hc'. injection Hc' as <-.
        apply breach_test_false.
        apply (find_none_all _ _ Ef b Hin).
    + exists st. apply precise_breach_idle; [exact Ha|].
      intros c' Hc'; rewrite Ht in Hc'; discriminate.
  - destruct (ring_manager_skip cfg st Hr Ha Hgt) as (st' & H & _). eauto.
Qed.

(** ** The ball-ball callback *)

Lemma ball_ball_collision_full (cfg : Config) (arbiter : Arbiter) (st : State) :
  (100 <= length (balls st))%nat ->
  ball_ball_collision cfg arbiter st = Some (st, true).
Proof.
  intros H; unfold ball_ball_collision.
  replace (length (balls st) <? 100)%nat with false; [reflexivity|].
  symmetry; apply Nat.ltb_ge; exact H.
Qed.

Lemma ball_ball_collision_spawns (cfg : Config) (arbiter : Arbiter) (st st' : State)
      (r : bool) :
  (length (balls st) < 100)%nat ->
  ball_ball_collision cfg arbiter st = Some (st', r) ->
  r = true
  /\ (exists new_ball, balls st' = balls st ++ [new_ball])
  /\ ball_hits st' = (ball_hits st + 1)%Z
  /\ active_circle_index st' = active_circle_index st.
Proof.
  intros Hlt; unfold ball_ball_collision.
  replace (length (balls st) <? 100)%nat with true
    by (symmetry; apply Nat.ltb_lt; exact Hlt).
  set (st2 := if sounds_loaded cfg then _ else _).
  assert (Hst2 : balls st2 = balls st /\ ball_hits st2 = (ball_hits st + 1)%Z
                 /\ active_circle_index st2 = active_circle_index st).
  { subst st2; destruct (sounds_loaded cfg); repeat split. }
  destruct Hst2 as (Hb & Hh & Ha).
  destruct (if (active_circle_index st2 <? len_circles st2)%Z then _ else _)
    as [Renc|]; [|discriminate].
  destruct (candidate_loop cfg Renc _ _ 20 (rng_pos st2) None) as [[cand|] cur];
    [|discriminate].
  intros [= <- <-]. simpl. rewrite Hb, Hh, Ha. repeat split; eauto.
Qed.

Lemma ball_ball_collision_length (cfg : Config) (arbiter : Arbiter)
      (st st' : State) (r : bool) :
  ball_ball_collision cfg arbiter st = Some (st', r) ->
  (length (balls st) <= length (balls st'))%nat
  /\ (length (balls st') <= Nat.max 100 (length (balls st)))%nat
  /\ active_circle_index st' = active_circle_index st.
Proof.
  intros H.
  destruct (Nat.lt_ge_cases (length (balls st)) 100) as [Hlt|Hge].
  - destruct (ball_ball_collision_spawns _ _ _ _ _ Hlt H) as (_ & [nb Hb] & _ & Ha).
    rewrite Hb, length_app; cbn [length]. repeat split; auto; lia.
  - rewrite (ball_ball_collision_full cfg arbiter st Hge) in H.
    injection H as <- <-. repeat split; lia.
Qed.

(** ** Steps *)

Lemma Forall2_same_length {A B : Type} (P : A -> B -> Prop) (l : list A) (l' : list B) :
  Forall2 P l l' -> length l' = length l.
Proof. induction 1; simpl; congruence. Qed.

Lemma step_balls (cfg : Config) (st st' : State) :
  step cfg st st' ->
  (length (balls st) <= length (balls st'))%nat
  /\ (length (balls st') <= Nat.max 100 (length (balls st)))%nat
  /\ (active_circle_index st <= active_circle_index st')%Z.
Proof.
  intros H; destruct H as [quit st | st bs cs Hbs Hcs | st | arb st st' r Hc | st st' Ha].
  - unfold begin_iteration; destruct quit; cbn -[Nat.max]; repeat split; lia.
  - cbn -[Nat.max]. rewrite (Forall2_same_length _ _ _ Hbs). repeat split; lia.
  - unfold ball_arc_collision; destruct (sounds_loaded cfg); cbn -[Nat.max]; repeat split; lia.
  - destruct (ball_ball_collision_length _ _ _ _ _ Hc) as (H1 & H2 & H3).
    repeat split; auto; lia.
  - destruct (after_step_frame _ _ _ Ha) as (H1 & H2 & _).
    rewrite H1. repeat split; auto; lia.
Qed.

Lemma steps_balls (cfg : Config) (st st' : State) :
  steps cfg st st' -> (length (balls st) <= length (balls st'))%nat.
Proof.
  induction 1 as [st | st st1 st2 H1 _ IH]; [lia|].
  destruct (step_balls _ _ _ H1) as [H _]; lia.
Qed.

Lemma reachable_invariant (cfg : Config) (countdown : R) (st : State) :
  reachable cfg countdown st ->
  (length (balls st) <= Nat.max 100 (Z.to_nat (initial_balls cfg)))%nat
  /\ (0 <= active_circle_index st)%Z.
Proof.
  induction 1 as [st0 H0|st st' _ [IHb IHa] Hstep].
  - destruct (initial_state_inv cfg countdown st0 H0) as (Hb & _ & Ha & _).
    rewrite Hb, Ha, create_balls_length. split; lia.
  - destruct (step_balls _ _ _ Hstep) as (_ & H2 & H3). split; lia.
Qed.

(** ** The sample states *)

Lemma sample_radial_length (n : Z) (x : R) :
  0 <= x -> radial_length (sample_config n) (ball_on_axis x) = x.
Proof.
  intros Hx. rewrite radial_length_on_axis; unfold radial_dx, radial_dy; simpl; lra.
Qed.

Lemma sample_radial_dot (n : Z) (x : R) :
  radial_dot (sample_config n) (ball_on_axis x) = x.
Proof. unfold radial_dot, radial_dx, radial_dy; simpl; lra. Qed.

Lemma sample_outward (n : Z) (x : R) :
  0 < x ->
  nonzero_radial (sample_config n) (ball_on_axis x)
  && Rltb 0 (radial_dot (sample_config n) (ball_on_axis x)) = true.
Proof.
  intros Hx. apply andb_true_iff; split.
  - rewrite <- nonzero_radial_length. apply Rltb_true.
    rewrite sample_radial_length; lra.
  - apply Rltb_true. rewrite sample_radial_dot; exact Hx.
Qed.

Lemma sample_escape_index (n : Z) (x : R) (k : Z) :
  0 <= x -> IZR k <= x - 9 < IZR k + 1 ->
  spec_escape_index (sample_config n) (ball_on_axis x) = k.
Proof.
  intros Hx Hk. unfold spec_escape_index. rewrite sample_radial_length by exact Hx.
  apply Int_part_unique. unfold base_radius_val, radius_increment; simpl.
  replace ((x + 1 - 1 * 10) / 1) with (x - 9) by field. exact Hk.
Qed.

Lemma sample_max_one_ball (n : Z) (x : R) (k a : Z) :
  0 < x -> IZR k <= x - 9 < IZR k + 1 ->
  spec_max_escape_index (sample_config n) [ball_on_axis x] a = Z.max k a.
Proof.
  intros Hx Hk. unfold spec_max_escape_index. simpl filter.
  rewrite (sample_outward n x Hx). simpl.
  rewrite (sample_escape_index n x k) by lra. reflexivity.
Qed.

Lemma sample_config_radius (n : Z) : ball_radius (sample_config n) <> 0.
Proof. simpl; lra. Qed.

Lemma sample_gap_angles (i : Z) :
  RotatingArcCircle.get_gap_angles (sample_ring i) = (17 * PI / 10, 0).
Proof.
  pose proof PI_bounds. unfold RotatingArcCircle.get_gap_angles; simpl. f_equal.
  - apply (py_fmod_unique _ _ _ 0); unfold TWO_PI; lra.
  - apply (py_fmod_unique _ _ _ 1); unfold TWO_PI; lra.
Qed.

Lemma sample_ball_angle (n : Z) (x : R) :
  0 < x -> ball_angle (sample_config n) (ball_on_axis x) = 0.
Proof.
  intros Hx. unfold ball_angle, atan2, radial_dx, radial_dy; simpl.
  destruct (Rlt_dec 0 (x - 0)) as [_|Hn]; [|lra].
  replace ((0 - 0) / (x - 0)) with 0 by (field; lra).
  rewrite atan_0. apply py_fmod_small. pose proof TWO_PI_pos; lra.
Qed.

(** ** The end-of-round test *)

Lemma round_verdict_won (n a : Z) (t : R) :
  round_verdict n a t = Some true <-> (a >= n)%Z /\ (n - a < -100)%Z.
Proof.
  unfold round_verdict.
  destruct ((a >=? n)%Z && (n - a <? -100)%Z) eqn:E.
  - apply andb_true_iff in E; destruct E as [E1 E2].
    apply Z.geb_le in E1; apply Z.ltb_lt in E2. split; [lia|reflexivity].
  - split.
    + destruct (Rleb t 0); discriminate.
    + intros [H1 H2]. apply andb_false_iff in E; destruct E as [E|E].
      * rewrite Z.geb_leb in E; apply Z.leb_gt in E; lia.
      * apply Z.ltb_ge in E; lia.
Qed.

Lemma round_verdict_not_won (n a : Z) (t : R) :
  ~ ((a >= n)%Z /\ (n - a < -100)%Z) ->
  round_verdict n a t = if Rleb t 0 then Some false else None.
Proof.
  intros H. pose proof (round_verdict_won n a t) as Hw. unfold round_verdict in *.
  destruct ((a >=? n)%Z && (n - a <? -100)%Z); [|reflexivity].
  exfalso; apply H, Hw; reflexivity.
Qed.

Lemma match_state_end_of_round (st : State) :
  game_won st = None ->
  match_state (end_of_round_test st)
  = match round_verdict (len_circles st) (active_circle_index st) (time_left st) with
    | Some true => Won
    | Some false => Lost
    | None => Running
    end.
Proof.
  intros Hg. unfold end_of_round_test.
  destruct (round_verdict _ _ _) as [[|]|]; unfold match_state; simpl; auto.
  rewrite Hg. destruct (running st); reflexivity.
Qed.

Lemma match_state_won (st : State) :
  match_state st = Won <-> running st = false /\ game_won st = Some true.
Proof.
  unfold match_state.
  destruct (running st), (game_won st) as [[|]|]; split;
    try discriminate; try tauto; intros [H1 H2]; discriminate.
Qed.

Lemma target_ring_nth (st : State) (c : RotatingArcCircle.t) :
  target_ring st = Some c ->
  nth_error (circles st) (Z.to_nat (active_circle_index st)) = Some c
  /\ RotatingArcCircle.active c = true
  /\ (active_circle_index st < len_circles st)%Z.
Proof.
  unfold target_ring.
  destruct (active_circle_index st <? len_circles st)%Z eqn:E; [|discriminate].
  destruct (nth_error _ _) as [c'|]; [|discriminate].
  destruct (RotatingArcCircle.active c') eqn:Ea; [|discriminate].
  intros [= <-]. apply Z.ltb_lt in E. auto.
Qed.

Lemma step_creates (cfg : Config) (st st' : State) :
  step cfg st st' ->
  length (balls st') = length (balls st)
  \/ ((length (balls st) < 100)%nat
      /\ length (balls st') = S (length (balls st))
      /\ exists arbiter r, ball_ball_collision cfg arbiter st = Some (st', r)).
Proof.
  intros H; destruct H as [quit st | st bs cs Hbs Hcs | st | arb st st' r Hc | st st' Ha].
  - left. unfold begin_iteration; destruct quit; reflexivity.
  - left. simpl. apply (Forall2_same_length _ _ _ Hbs).
  - left. unfold ball_arc_collision; destruct (sounds_loaded cfg); reflexivity.
  - destruct (Nat.lt_ge_cases (length (balls st)) 100) as [Hlt|Hge].
    + right. destruct (ball_ball_collision_spawns _ _ _ _ _ Hlt Hc) as (_ & [nb Hb] & _).
      split; [exact Hlt|]. split; [|eauto].
      rewrite Hb, length_app; simpl; lia.
    + left. rewrite (ball_ball_collision_full cfg arb st Hge) in Hc.
      injection Hc as <- <-; reflexivity.
  - left. apply (after_step_frame _ _ _ Ha).
Qed.

Lemma escape_step_zero_radial (cfg : Config) (b : Ball.t) (m : Z) :
  radial_length cfg b = 0 -> escape_step cfg b m = Some m.
Proof.
  intros H; unfold escape_step.
  replace (Rltb 0 (radial_length cfg b)) with false; [reflexivity|].
  symmetry; apply Rltb_false; lra.
Qed.

Lemma breach_test_zero_radial (cfg : Config) (c : RotatingArcCircle.t) (b : Ball.t) :
  radial_length cfg b = 0 -> breach_test cfg c b = false.
Proof.
  intros H. apply radial_length_zero in H; destruct H as [Hx Hy].
  unfold breach_test.
  replace (Rltb 0 (radial_dot cfg b)) with false.
  - rewrite andb_false_r; reflexivity.
  - symmetry; apply Rltb_false. unfold radial_dot; rewrite Hx, Hy; lra.
Qed.

Lemma after_step_particles (cfg : Config) (st st' : State) :
  after_step cfg st = Some st' ->
  exists st1, ring_manager cfg st = Some st1
              /\ particles st' = particle_pass dt (particles st1).
Proof.
  unfold after_step.
  destruct (ring_manager cfg st) as [st1|]; [|discriminate].
  intros [= <-]. exists st1; split; [reflexivity|].
  destruct (end_of_round_test_frame
              (set_particles (particle_pass dt (particles st1)) st1))
    as (_ & _ & _ & Hp).
  rewrite Hp; reflexivity.
Qed.

Lemma particle_pass_live (d : R) (ps : list Particle.t) :
  Forall live (particle_pass d ps).
Proof.
  unfold particle_pass. apply Forall_forall. intros q Hq.
  apply filter_In in Hq; destruct Hq as [_ Hq].
  apply Rltb_true in Hq; exact Hq.
Qed.

(** * The properties *)

(** C1: when the maximum escape index of the scan (over the balls with a
    nonzero radial vector and positive radial speed, together with the active
    index) exceeds the active index, the scan computes exactly that maximum,
    every ring with index in [[activeIndex, min(maxEscapeIndex, N))] is
    switched off whatever the angles of the balls, every other ring is left
    as it was, and the active index becomes the maximum, also beyond [N]. *)
Theorem skip_destruction (cfg : Config) (st : State) :
  ball_radius cfg <> 0 ->
  (0 <= active_circle_index st)%Z ->
  (spec_max_escape_index cfg (balls st) (active_circle_index st)
   > active_circle_index st)%Z ->
  escape_scan cfg (balls st) (active_circle_index st)
  = Some (spec_max_escape_index cfg (balls st) (active_circle_index st))
  /\ exists st',
      ring_manager cfg st = Some st'
      /\ active_circle_index st'
         = spec_max_escape_index cfg (balls st) (active_circle_index st)
      /\ length (circles st') = length (circles st)
      /\ forall (i : nat) (c : RotatingArcCircle.t),
          nth_error (circles st) i = Some c ->
          ((active_circle_index st <= Z.of_nat i
            < Z.min (spec_max_escape_index cfg (balls st) (active_circle_index st))
                    (len_circles st))%Z ->
           nth_error (circles st') i = Some (RotatingArcCircle.remove c)
           /\ RotatingArcCircle.active (RotatingArcCircle.remove c) = false)
          /\ (~ (active_circle_index st <= Z.of_nat i
                 < Z.min (spec_max_escape_index cfg (balls st) (active_circle_index st))
                         (len_circles st))%Z ->
              nth_error (circles st') i = Some c).
Proof.
  intros Hr Ha Hm. split; [apply escape_scan_spec; exact Hr|].
  destruct (ring_manager_skip cfg st Hr Ha Hm)
    as (st' & Hrun & Hai & _ & _ & _ & Hlen & Hnth).
  exists st'; repeat split; auto.
  - rewrite (Hnth i c H). unfold after_skip.
    replace (_ && _) with true; [reflexivity|].
    symmetry; apply andb_true_iff; split; [apply Z.leb_le|apply Z.ltb_lt]; lia.
  - intros Hout. rewrite (Hnth i c H). unfold after_skip.
    destruct (_ && _) eqn:E; [|reflexivity].
    apply andb_true_iff in E; destruct E as [E1 E2].
    apply Z.leb_le in E1; apply Z.ltb_lt in E2. exfalso; apply Hout; lia.
Qed.

Lemma skip_destruction_witness :
  exists st',
    ring_manager (sample_config 1) skip_state = Some st'
    /\ active_circle_index st' = 2%Z
    /\ nth_error (circles st') 1 = Some (RotatingArcCircle.remove (sample_ring 1)).
Proof.
  assert (Hmax : spec_max_escape_index (sample_config 1) (balls skip_state)
                   (active_circle_index skip_state) = 2%Z).
  { apply (sample_max_one_ball 1 11 2 0); lra. }
  destruct (skip_destruction (sample_config 1) skip_state)
    as (_ & st' & Hrun & Hai & _ & Hnth).
  - apply sample_config_radius.
  - simpl; lia.
  - rewrite Hmax; simpl; lia.
  - exists st'. rewrite Hmax in *. repeat split; auto.
    destruct (Hnth 1%nat (sample_ring 1) eq_refl) as [Hin _].
    apply Hin. unfold len_circles; simpl; lia.
Defined.

(** C2, as the code has it: in a tick where the skip does not fire, either
    nothing changes, and then no ball breaches the tested ring, or exactly
    the active ring at [activeIndex] goes and the index moves on by one; this
    happens when a ball has its outer edge on or beyond the ring, moves
    outward and has its angle in the gap, the two boundaries of the gap
    included.  The first such ball decides: no ball before it breaches, and
    the balls after it play no part. *)
Theorem precise_breach_inclusive (cfg : Config) (st : State) :
  ball_radius cfg <> 0 ->
  (0 <= active_circle_index st)%Z ->
  (spec_max_escape_index cfg (balls st) (active_circle_index st)
   <= active_circle_index st)%Z ->
  (exists st',
      ring_manager cfg st = Some st'
      /\ ((st' = st
           /\ forall c, target_ring st = Some c ->
                        forall b, In b (balls st) -> ~ breaches cfg c b)
          \/ (exists c l1 b l2,
                 target_ring st = Some c
                 /\ balls st = l1 ++ b :: l2
                 /\ (forall b', In b' l1 -> ~ breaches cfg c b')
                 /\ breaches cfg c b
                 /\ circles st'
                    = list_set (circles st) (Z.to_nat (active_circle_index st))
                               (RotatingArcCircle.remove c)
                 /\ active_circle_index st' = (active_circle_index st + 1)%Z)))
  /\ (forall c b, breach_test cfg c b = true <->
                  RotatingArcCircle.radius c <= radial_length cfg b + Ball.radius b
                  /\ 0 < radial_dot cfg b
                  /\ in_gap cfg c b)
  /\ (forall c l1 b l2,
         (forall b', In b' l1 -> breach_test cfg c b' = false) ->
         breach_test cfg c b = true ->
         find (breach_test cfg c) (l1 ++ b :: l2) = Some b).
Proof.
  intros Hr Ha Hm. split; [|split].
  - rewrite (ring_manager_no_skip cfg st Hr Hm).
    destruct (target_ring st) as [c|] eqn:Ht.
    + destruct (find (breach_test cfg c) (balls st)) as [b|] eqn:Ef.
      * destruct (find_some _ _ Ef) as [Hin Hb]. apply breach_test_true in Hb.
        destruct (precise_breach_fires cfg st c b Ha Ht Hin Hb)
          as (st' & l1 & b1 & l2 & Hrun & Hsplit & Hl1 & Hb1 & Hcs & Hai & _).
        exists st'; split; [exact Hrun|]. right.
        exists c, l1, b1, l2; repeat split; auto; apply Hb1.
      * assert (Hno : forall c', target_ring st = Some c' ->
                                 forall b, In b (balls st) -> ~ breaches cfg c' b).
        { intros c' Hc' b Hin. rewrite Ht in Hc'. injection Hc' as <-.
          apply breach_test_false, (find_none_all _ _ Ef b Hin). }
        exists st; split; [apply precise_breach_idle; auto|]. left.
        split; [reflexivity|].
        intros c0 Hc0 b Hin; apply (Hno c0); [congruence | exact Hin].
    + assert (Hno : forall c', target_ring st = Some c' ->
                               forall b, In b (balls st) -> ~ breaches cfg c' b).
      { intros c' Hc'; rewrite Ht in Hc'; discriminate. }
      exists st; split; [apply precise_breach_idle; auto|]. left.
        split; [reflexivity|].
        intros c0 Hc0 b Hin; apply (Hno c0); [congruence | exact Hin].
  - intros c b. apply breach_test_true.
  - intros c l1 b l2. apply find_first.
Qed.

Lemma precise_breach_inclusive_witness :
  exists st',
    ring_manager (sample_config 1) boundary_state = Some st'
    /\ (st' = boundary_state \/ active_circle_index st' = 1%Z).
Proof.
  assert (Hmax : spec_max_escape_index (sample_config 1) (balls boundary_state)
                   (active_circle_index boundary_state) = 0%Z).
  { apply (sample_max_one_ball 1 9 0 0); lra. }
  destruct (precise_breach_inclusive (sample_config 1) boundary_state)
    as [(st' & Hrun & Hcases) _].
  - apply sample_config_radius.
  - simpl; lia.
  - rewrite Hmax; simpl; lia.
  - exists st'; split; [exact Hrun|].
    destruct Hcases as [[Heq _]|(c & l1 & b & l2 & _ & _ & _ & _ & _ & Hai)].
    + left; exact Heq.
    + right; exact Hai.
Defined.

(** C2, the statement as written fails: the ball of [boundary_state] touches
    ring 0 with its angle exactly on the end of the gap, not strictly inside
    it, and the ring goes. *)
Lemma breach_on_gap_boundary :
  (spec_max_escape_index (sample_config 1) (balls boundary_state)
     (active_circle_index boundary_state)
   <= active_circle_index boundary_state)%Z
  /\ nth_error (circles boundary_state) 0 = Some (sample_ring 0)
  /\ (forall b, In b (balls boundary_state) ->
                ~ strictly_in_gap (sample_config 1) (sample_ring 0) b)
  /\ exists st',
      ring_manager (sample_config 1) boundary_state = Some st'
      /\ nth_error (circles st') 0 = Some (RotatingArcCircle.remove (sample_ring 0))
      /\ active_circle_index st' = 1%Z.
Proof.
  pose proof PI_bounds as Hpi.
  assert (Hmax : spec_max_escape_index (sample_config 1) (balls boundary_state)
                   (active_circle_index boundary_state) = 0%Z).
  { apply (sample_max_one_ball 1 9 0 0); lra. }
  split; [rewrite Hmax; simpl; lia|]. split; [reflexivity|]. split.
  - intros b [<-|[]]. unfold strictly_in_gap.
    rewrite sample_gap_angles, sample_ball_angle by lra. simpl. lra.
  - assert (Hb : breaches (sample_config 1) (sample_ring 0) (ball_on_axis 9)).
    { unfold breaches, in_gap.
      rewrite sample_gap_angles, sample_ball_angle, sample_radial_length,
        sample_radial_dot by lra.
      simpl. repeat split; lra. }
    destruct (precise_breach_fires (sample_config 1) boundary_state
                (sample_ring 0) (ball_on_axis 9))
      as (st' & _ & _ & _ & Hrun & _ & _ & _ & Hcs & Hai & _).
    + simpl; lia.
    + reflexivity.
    + left; reflexivity.
    + exact Hb.
    + exists st'. rewrite ring_manager_no_skip;
        [|apply sample_config_radius | rewrite Hmax; simpl; lia].
      split; [exact Hrun|]. split; [rewrite Hcs; reflexivity | exact Hai].
Qed.

(** C3: [angle_in_range] reduces its three arguments modulo [2 PI] (so the
    result does not change when multiples of [2 PI] are added); when the
    reduced start is below the reduced end it is the inclusive range check,
    otherwise the wrap-around check; both boundaries are inside.  It is a
    function of its arguments alone. *)
Theorem angle_in_range_spec (angle start end_ : R) :
  (0 <= py_fmod angle TWO_PI < TWO_PI
   /\ 0 <= py_fmod start TWO_PI < TWO_PI
   /\ 0 <= py_fmod end_ TWO_PI < TWO_PI)
  /\ (forall i j k : Z,
         angle_in_range (angle + IZR i * TWO_PI) (start + IZR j * TWO_PI)
                        (end_ + IZR k * TWO_PI)
         = angle_in_range angle start end_)
  /\ (py_fmod start TWO_PI < py_fmod end_ TWO_PI ->
      (angle_in_range angle start end_ = true <->
       py_fmod start TWO_PI <= py_fmod angle TWO_PI <= py_fmod end_ TWO_PI))
  /\ (py_fmod end_ TWO_PI <= py_fmod start TWO_PI ->
      (angle_in_range angle start end_ = true <->
       py_fmod start TWO_PI <= py_fmod angle TWO_PI
       \/ py_fmod angle TWO_PI <= py_fmod end_ TWO_PI))
  /\ angle_in_range start start end_ = true
  /\ angle_in_range end_ start end_ = true.
Proof.
  pose proof TWO_PI_pos as Hpos.
  split; [repeat split; apply py_fmod_bounds; exact Hpos|].
  split; [intros i j k; unfold angle_in_range;
          rewrite !py_fmod_period by exact Hpos; reflexivity|].
  split; [|split; [|split]].
  - intros Hlt; unfold angle_in_range.
    replace (Rltb _ _) with true by (symmetry; apply Rltb_true; exact Hlt).
    rewrite andb_true_iff, !Rleb_true. tauto.
  - intros Hge; unfold angle_in_range.
    replace (Rltb _ _) with false by (symmetry; apply Rltb_false; exact Hge).
    rewrite orb_true_iff, !Rleb_true. tauto.
  - unfold angle_in_range. destruct (Rltb _ _) eqn:E.
    + apply Rltb_true in E. apply andb_true_iff; split; apply Rleb_true; lra.
    + apply orb_true_iff; left; apply Rleb_true; lra.
  - unfold angle_in_range. destruct (Rltb _ _) eqn:E.
    + apply Rltb_true in E. apply andb_true_iff; split; apply Rleb_true; lra.
    + apply orb_true_iff; right; apply Rleb_true; lra.
Qed.

(** C4, as the code has it: the speed-up belongs to the precise breach only.
    When a ball breaches the active ring at [activeIndex] in a tick without
    skip, that ring goes and every ball's velocity is multiplied by 1.1,
    position and radius unchanged; a tick that takes the skip path leaves
    every ball as it was. *)
Theorem speed_up_on_precise_breach_only (cfg : Config) (st : State) :
  ball_radius cfg <> 0 ->
  (0 <= active_circle_index st)%Z ->
  exists st',
    ring_manager cfg st = Some st'
    /\ ((spec_max_escape_index cfg (balls st) (active_circle_index st)
         > active_circle_index st)%Z ->
        balls st' = balls st)
    /\ ((spec_max_escape_index cfg (balls st) (active_circle_index st)
         <= active_circle_index st)%Z ->
        forall c, target_ring st = Some c ->
                  (exists b, In b (balls st) /\ breaches cfg c b) ->
                  nth_error (circles st') (Z.to_nat (active_circle_index st))
                  = Some (RotatingArcCircle.remove c)
                  /\ balls st' = map speed_up (balls st))
    /\ (forall b, Ball.vel_x (speed_up b) = Ball.vel_x b * (11 / 10)
                  /\ Ball.vel_y (speed_up b) = Ball.vel_y b * (11 / 10)
                  /\ Ball.pos_x (speed_up b) = Ball.pos_x b
                  /\ Ball.pos_y (speed_up b) = Ball.pos_y b
                  /\ Ball.radius (speed_up b) = Ball.radius b).
Proof.
  intros Hr Ha.
  destruct (ring_manager_total cfg st Hr Ha) as [st' Hrun].
  exists st'. split; [exact Hrun|]. split; [|split].
  - intros Hgt.
    destruct (ring_manager_skip cfg st Hr Ha Hgt) as (st1 & Hrun1 & _ & Hb & _).
    congruence.
  - intros Hle c Ht (b & Hin & Hb).
    rewrite (ring_manager_no_skip cfg st Hr Hle) in Hrun.
    destruct (precise_breach_fires cfg st c b Ha Ht Hin Hb)
      as (st1 & _ & _ & _ & Hrun1 & _ & _ & _ & Hcs & _ & Hbs & _).
    assert (st1 = st') by congruence; subst st1.
    split; [|exact Hbs].
    destruct (target_ring_nth st c Ht) as (Hnth & _ & _).
    rewrite Hcs, (nth_error_list_set _ _ _ _ _ Hnth), Nat.eqb_refl. reflexivity.
  - intros b; repeat split.
Qed.

Lemma speed_up_on_precise_breach_only_witness :
  exists st',
    ring_manager (sample_config 1) boundary_state = Some st'
    /\ balls st' = map speed_up (balls boundary_state).
Proof.
  pose proof PI_bounds as Hpi.
  assert (Hmax : spec_max_escape_index (sample_config 1) (balls boundary_state)
                   (active_circle_index boundary_state) = 0%Z).
  { apply (sample_max_one_ball 1 9 0 0); lra. }
  destruct (speed_up_on_precise_breach_only (sample_config 1) boundary_state)
    as (st' & Hrun & _ & Hbreach & _).
  - apply sample_config_radius.
  - simpl; lia.
  - exists st'; split; [exact Hrun|].
    apply (Hbreach ltac:(rewrite Hmax; simpl; lia) (sample_ring 0) eq_refl).
    exists (ball_on_axis 9); split; [left; reflexivity|].
    unfold breaches, in_gap.
    rewrite sample_gap_angles, sample_ball_angle, sample_radial_length,
      sample_radial_dot by lra.
    simpl. repeat split; lra.
Defined.

(** C4, the statement as written fails on the skip path: in [skip_state]
    ring 0, the active ring at the active index, goes, and the velocity of
    the ball is what it was, not 1.1 times that. *)
Lemma skip_leaves_velocity :
  target_ring skip_state = Some (sample_ring 0)
  /\ exists st',
      ring_manager (sample_config 1) skip_state = Some st'
      /\ nth_error (circles st') 0 = Some (RotatingArcCircle.remove (sample_ring 0))
      /\ balls st' = balls skip_state
      /\ balls st' <> map speed_up (balls skip_state).
Proof.
  split; [reflexivity|].
  assert (Hmax : spec_max_escape_index (sample_config 1) (balls skip_state)
                   (active_circle_index skip_state) = 2%Z).
  { apply (sample_max_one_ball 1 11 2 0); lra. }
  destruct (ring_manager_skip (sample_config 1) skip_state)
    as (st' & Hrun & _ & Hb & _ & _ & _ & Hnth).
  - apply sample_config_radius.
  - simpl; lia.
  - rewrite Hmax; simpl; lia.
  - exists st'. split; [exact Hrun|]. split; [|split; [exact Hb|]].
    + rewrite (Hnth 0%nat (sample_ring 0) eq_refl), Hmax. reflexivity.
    + rewrite Hb. simpl. intros H. injection H as H. lra.
Qed.

(** C5: the round is won, the loop stopped with [game_won = True], exactly
    when [activeIndex >= N] and [N - activeIndex < -100], that is when the
    active index is more than 100 past [N]; with [activeIndex = N] it is not
    won, and with time remaining the loop goes on as before. *)
Theorem won_exactly_when_over_advanced (st : State) :
  game_won st = None ->
  (match_state (end_of_round_test st) = Won <->
   (active_circle_index st >= len_circles st)%Z
   /\ (len_circles st - active_circle_index st < -100)%Z)
  /\ (match_state (end_of_round_test st) = Won <->
      (active_circle_index st - len_circles st > 100)%Z)
  /\ (running (end_of_round_test st) = false
      /\ game_won (end_of_round_test st) = Some true
      <-> (active_circle_index st - len_circles st > 100)%Z)
  /\ (active_circle_index st = len_circles st ->
      match_state (end_of_round_test st) <> Won
      /\ game_won (end_of_round_test st) <> Some true
      /\ (0 < time_left st ->
          match_state (end_of_round_test st) = Running
          /\ end_of_round_test st = st)).
Proof.
  intros Hg.
  pose proof (round_verdict_won (len_circles st) (active_circle_index st)
                                (time_left st)) as Hw.
  assert (Hfields : running (end_of_round_test st) = false
                    /\ game_won (end_of_round_test st) = Some true
                    <-> (active_circle_index st >= len_circles st)%Z
                        /\ (len_circles st - active_circle_index st < -100)%Z).
  { rewrite <- Hw. unfold end_of_round_test.
    destruct (round_verdict _ _ _) as [[|]|]; simpl.
    - split; auto.
    - split; [intros [_ H]; discriminate | discriminate].
    - rewrite Hg. split; [intros [_ H]; discriminate | discriminate]. }
  rewrite (match_state_end_of_round st Hg).
  assert (Hiff : match round_verdict (len_circles st) (active_circle_index st)
                         (time_left st) with
                 | Some true => Won | Some false => Lost | None => Running end = Won
                 <-> (active_circle_index st >= len_circles st)%Z
                     /\ (len_circles st - active_circle_index st < -100)%Z).
  { rewrite <- Hw. destruct (round_verdict _ _ _) as [[|]|]; split; congruence. }
  split; [exact Hiff|]. split; [rewrite Hiff; lia|].
  split; [rewrite Hfields; lia|].
  intros Heq.
  assert (Hnw : ~ ((active_circle_index st >= len_circles st)%Z
                   /\ (len_circles st - active_circle_index st < -100)%Z)) by lia.
  split; [rewrite Hiff; exact Hnw|].
  split; [intros Hgw; apply Hnw, Hw; unfold end_of_round_test in Hgw;
          destruct (round_verdict _ _ _) as [[|]|]; simpl in Hgw;
          congruence|].
  intros Ht. unfold end_of_round_test.
  rewrite (round_verdict_not_won _ _ (time_left st) Hnw).
  replace (Rleb (time_left st) 0) with false
    by (symmetry; apply Rleb_false; exact Ht).
  split; reflexivity.
Qed.

Lemma won_exactly_when_over_advanced_witness :
  match_state (end_of_round_test cleared_state) = Running.
Proof.
  destruct (won_exactly_when_over_advanced cleared_state eq_refl)
    as (_ & _ & _ & Hn).
  destruct (Hn eq_refl) as (_ & _ & Hrun).
  apply Hrun. simpl; lra.
Defined.

(** C6, as the code has it: the won test comes first.  With
    [timeLeft <= 0] at the end of the tick the loop stops; the round is lost
    when the won condition does not hold, and won when it does. *)
Theorem lost_unless_won (st : State) :
  game_won st = None ->
  time_left st <= 0 ->
  running (end_of_round_test st) = false
  /\ (~ won_condition st -> match_state (end_of_round_test st) = Lost)
  /\ (won_condition st -> match_state (end_of_round_test st) = Won).
Proof.
  intros Hg Ht. unfold won_condition.
  pose proof (round_verdict_won (len_circles st) (active_circle_index st)
                                (time_left st)) as Hw.
  assert (Hle : Rleb (time_left st) 0 = true) by (apply Rleb_true; exact Ht).
  split; [|split].
  - unfold end_of_round_test, round_verdict. rewrite Hle.
    destruct (_ && _); reflexivity.
  - intros Hn. rewrite (match_state_end_of_round st Hg).
    rewrite (round_verdict_not_won _ _ _ Hn), Hle. reflexivity.
  - intros Hwon. rewrite (match_state_end_of_round st Hg).
    apply Hw in Hwon. rewrite Hwon. reflexivity.
Qed.

Lemma lost_unless_won_witness :
  match_state (end_of_round_test (sample_state [] 3 0)) = Lost.
Proof.
  destruct (lost_unless_won (sample_state [] 3 0) eq_refl) as (_ & Hl & _).
  - simpl; lra.
  - apply Hl. unfold won_condition, len_circles; simpl; lia.
Defined.

(** C6, the statement as written fails: in [over_advanced_timeout_state] the
    clock is at 0 and the won condition holds, and the round is won, not
    lost. *)
Lemma timeout_with_won_condition :
  game_won over_advanced_timeout_state = None
  /\ time_left over_advanced_timeout_state <= 0
  /\ won_condition over_advanced_timeout_state
  /\ match_state (end_of_round_test over_advanced_timeout_state) = Won
  /\ match_state (end_of_round_test over_advanced_timeout_state) <> Lost.
Proof.
  split; [reflexivity|]. split; [simpl; lra|].
  split; [unfold won_condition, len_circles; simpl; lia|].
  assert (H : match_state (end_of_round_test over_advanced_timeout_state) = Won)
    by reflexivity.
  split; [exact H | rewrite H; discriminate].
Qed.

(** C7, as the code has it: setup creates [initialBalls] balls, a step
    creates a ball only through the ball-ball callback and only when fewer
    than 100 balls exist, so the population never exceeds the larger of 100
    and [initialBalls]; it never exceeds 100 when [initialBalls <= 100]. *)
Theorem ball_population_bound (cfg : Config) (countdown : R) (st : State) :
  reachable cfg countdown st ->
  (length (balls st) <= Nat.max 100 (Z.to_nat (initial_balls cfg)))%nat
  /\ ((initial_balls cfg <= 100)%Z -> (length (balls st) <= 100)%nat)
  /\ length (create_balls cfg (Z.to_nat (initial_balls cfg)) 0 0)
     = Z.to_nat (initial_balls cfg)
  /\ (forall st0, initial_state cfg countdown = Some st0 ->
                  length (balls st0) = Z.to_nat (initial_balls cfg))
  /\ (forall st', step cfg st st' ->
        length (balls st') = length (balls st)
        \/ ((length (balls st) < 100)%nat
            /\ length (balls st') = S (length (balls st))
            /\ exists arbiter r,
                ball_ball_collision cfg arbiter st = Some (st', r))).
Proof.
  intros Hreach.
  destruct (reachable_invariant cfg countdown st Hreach) as [Hb _].
  split; [exact Hb|]. split; [lia|]. split; [apply create_balls_length|]. split.
  - intros st0 H0. destruct (initial_state_inv cfg countdown st0 H0) as (Hb0 & _).
    rewrite Hb0. apply create_balls_length.
  - intros st'; apply step_creates.
Qed.

Lemma ball_population_bound_witness :
  exists st0,
    initial_state (sample_config 2) 60 = Some st0
    /\ (length (balls st0) <= 100)%nat.
Proof.
  destruct (initial_state_some (sample_config 2) 60) as [st0 H0]; [simpl; lia|].
  exists st0. split; [exact H0|].
  destruct (ball_population_bound (sample_config 2) 60 st0
              (reachable_init (sample_config 2) 60 st0 H0)) as (_ & H & _).
  apply H. simpl; lia.
Defined.

(** C7, the statement as written fails: started with 101 initial balls, the
    very first state holds 101 balls. *)
Lemma setup_exceeds_cap :
  exists st,
    reachable (sample_config 101) 60 st /\ (100 < length (balls st))%nat.
Proof.
  destruct (initial_state_some (sample_config 101) 60) as [st0 H0]; [simpl; lia|].
  exists st0. split; [apply reachable_init; exact H0|].
  destruct (initial_state_inv _ _ _ H0) as (Hb & _).
  rewrite Hb, create_balls_length. simpl; lia.
Qed.

(** C8: the particle pass moves every particle by [velocity * dt], takes
    [dt] off its lifetime and keeps exactly those whose lifetime is still
    positive; so every particle a tick hands on is live, and a particle with
    lifetime 0.016 is gone after a pass with [dt = 0.0167]. *)
Theorem particle_pass_spec (d : R) (ps : list Particle.t) :
  Forall live (particle_pass d ps)
  /\ (forall q, In q (particle_pass d ps) <->
                exists p, In p ps /\ q = Particle.update d p
                          /\ 0 < Particle.lifetime p - d)
  /\ (forall p, Particle.pos_x (Particle.update d p)
                = Particle.pos_x p + Particle.vel_x p * d
                /\ Particle.pos_y (Particle.update d p)
                   = Particle.pos_y p + Particle.vel_y p * d
                /\ Particle.lifetime (Particle.update d p)
                   = Particle.lifetime p - d)
  /\ (forall x y vx vy,
         particle_pass (167 / 10000) [Particle.mk x y vx vy (16 / 1000)] = [])
  /\ (forall cfg st st', after_step cfg st = Some st' ->
                         Forall live (particles st')).
Proof.
  split; [apply particle_pass_live|]. split; [|split; [|split]].
  - intros q. unfold particle_pass. rewrite filter_In, in_map_iff, Rltb_true.
    split.
    + intros [(p & <- & Hp) Hq]. exists p; simpl in Hq; auto.
    + intros (p & Hp & -> & Hl). split; [exists p; auto | exact Hl].
  - intros p; repeat split.
  - intros x y vx vy. unfold particle_pass; simpl.
    replace (Rltb _ _) with false; [reflexivity|].
    symmetry; apply Rltb_false; lra.
  - intros cfg st st' H.
    destruct (after_step_particles cfg st st' H) as (st1 & _ & ->).
    apply particle_pass_live.
Qed.

(** C9: a ball whose radial vector has length zero is passed over by the
    escape scan, whatever the ring spacing (no division takes place, so
    nothing is raised even for spacing 0), and never passes the breach test;
    both loops go as if the ball were not in the list. *)
Theorem zero_radial_ball_skipped (cfg : Config) (b : Ball.t) :
  radial_length cfg b = 0 ->
  (forall m, escape_step cfg b m = Some m)
  /\ (forall c, breach_test cfg c b = false)
  /\ (forall l1 l2 m,
         escape_scan cfg (l1 ++ b :: l2) m = escape_scan cfg (l1 ++ l2) m)
  /\ (forall c l1 l2,
         find (breach_test cfg c) (l1 ++ b :: l2)
         = find (breach_test cfg c) (l1 ++ l2)).
Proof.
  intros H. split; [|split; [|split]].
  - intros m; apply escape_step_zero_radial; exact H.
  - intros c; apply breach_test_zero_radial; exact H.
  - intros l1 l2; induction l1 as [|h t IH]; intros m; simpl.
    + rewrite (escape_step_zero_radial cfg b m H); reflexivity.
    + destruct (escape_step cfg h m); [apply IH | reflexivity].
  - intros c l1 l2; induction l1 as [|h t IH]; simpl.
    + rewrite (breach_test_zero_radial cfg c b H); reflexivity.
    + destruct (breach_test cfg c h); [reflexivity | exact IH].
Qed.

Lemma zero_radial_ball_skipped_witness :
  escape_step (sample_config 1) centered_ball 0 = Some 0%Z
  /\ breach_test (sample_config 1) (sample_ring 0) centered_ball = false.
Proof.
  destruct (zero_radial_ball_skipped (sample_config 1) centered_ball)
    as (He & Hb & _).
  - apply radial_length_zero. unfold radial_dx, radial_dy; simpl; lra.
  - split; [apply He | apply Hb].
Defined.

(** C10: with 100 balls or more in the list, now or after any further
    steps, the ball-ball callback returns [True] and the state it leaves is
    the state it found: no new ball, no hit counted, no sound played. *)
Theorem collision_at_cap_changes_nothing (cfg : Config) (arbiter : Arbiter)
        (st st' : State) :
  (100 <= length (balls st))%nat ->
  steps cfg st st' ->
  ball_ball_collision cfg arbiter st = Some (st, true)
  /\ ball_ball_collision cfg arbiter st' = Some (st', true).
Proof.
  intros Hcap Hsteps. split.
  - apply ball_ball_collision_full; exact Hcap.
  - apply ball_ball_collision_full.
    pose proof (steps_balls cfg st st' Hsteps). lia.
Qed.

Lemma collision_at_cap_changes_nothing_witness :
  ball_ball_collision (sample_config 2) (mkArbiter (5, 0) (5, 0)) crowded_state
  = Some (crowded_state, true).
Proof.
  apply (collision_at_cap_changes_nothing (sample_config 2) (mkArbiter (5, 0) (5, 0))
           crowded_state crowded_state).
  - simpl; lia.
  - apply steps_refl.
Defined.

(** * Further properties of the code *)

(** ** Angles *)

Lemma py_fmod_idem (x : R) : py_fmod (py_fmod x TWO_PI) TWO_PI = py_fmod x TWO_PI.
Proof. apply py_fmod_small, py_fmod_bounds, TWO_PI_pos. Qed.

Lemma py_fmod_add_l (x d : R) :
  py_fmod (py_fmod x TWO_PI + d) TWO_PI = py_fmod (x + d) TWO_PI.
Proof.
  unfold py_fmod at 2.
  replace (x - IZR (Int_part (x / TWO_PI)) * TWO_PI + d)
    with ((x + d) + IZR (- Int_part (x / TWO_PI)) * TWO_PI)
    by (rewrite opp_IZR; ring).
  apply py_fmod_period, TWO_PI_pos.
Qed.

Lemma py_fmod_wrap_low (x : R) : 0 <= x < TWO_PI -> py_fmod x TWO_PI = x.
Proof. apply py_fmod_small. Qed.

Lemma py_fmod_wrap_high (x : R) :
  TWO_PI <= x < 2 * TWO_PI -> py_fmod x TWO_PI = x - TWO_PI.
Proof.
  intros H. pose proof TWO_PI_pos.
  apply (py_fmod_unique x TWO_PI (x - TWO_PI) 1); lra.
Qed.

Lemma angle_in_range_iff (a s e : R) :
  angle_in_range a s e = true <->
  (py_fmod s TWO_PI < py_fmod e TWO_PI
   /\ py_fmod s TWO_PI <= py_fmod a TWO_PI <= py_fmod e TWO_PI)
  \/ (py_fmod e TWO_PI <= py_fmod s TWO_PI
      /\ (py_fmod s TWO_PI <= py_fmod a TWO_PI
          \/ py_fmod a TWO_PI <= py_fmod e TWO_PI)).
Proof.
  unfold angle_in_range. destruct (Rltb _ _) eqn:E.
  - apply Rltb_true in E. rewrite andb_true_iff, !Rleb_true. split; [tauto|].
    intros [[_ H]|[H _]]; [exact H | lra].
  - apply Rltb_false in E. rewrite orb_true_iff, !Rleb_true. split; [tauto|].
    intros [[H _]|[_ H]]; [lra | exact H].
Qed.

(** X1: a degenerate interval, whose two ends agree modulo [2 PI], holds
    every angle. *)
Theorem angle_in_range_degenerate (angle start end_ : R) :
  py_fmod start TWO_PI = py_fmod end_ TWO_PI ->
  angle_in_range angle start end_ = true.
Proof.
  intros H. apply angle_in_range_iff. right. rewrite H.
  split; [lra|]. destruct (Rle_dec (py_fmod end_ TWO_PI) (py_fmod angle TWO_PI)); lra.
Qed.

Lemma angle_in_range_degenerate_witness :
  angle_in_range 3 1 (1 + 1 * TWO_PI) = true.
Proof.
  apply (angle_in_range_degenerate 3 1 (1 + 1 * TWO_PI)).
  symmetry. apply (py_fmod_period 1 TWO_PI 1), TWO_PI_pos.
Defined.

(** X2: an interval and the interval with the ends exchanged cover the whole
    circle, and when the ends differ they share the two ends only. *)
Theorem angle_in_range_complement (angle start end_ : R) :
  angle_in_range angle start end_ || angle_in_range angle end_ start = true
  /\ (py_fmod start TWO_PI <> py_fmod end_ TWO_PI ->
      angle_in_range angle start end_ = true ->
      angle_in_range angle end_ start = true ->
      py_fmod angle TWO_PI = py_fmod start TWO_PI
      \/ py_fmod angle TWO_PI = py_fmod end_ TWO_PI).
Proof.
  split.
  - apply orb_true_iff. rewrite !angle_in_range_iff.
    destruct (Rlt_dec (py_fmod start TWO_PI) (py_fmod end_ TWO_PI));
      destruct (Rle_dec (py_fmod start TWO_PI) (py_fmod angle TWO_PI));
      destruct (Rle_dec (py_fmod angle TWO_PI) (py_fmod end_ TWO_PI)); lra.
  - rewrite !angle_in_range_iff. intros Hne H1 H2. lra.
Qed.

(** ** The gap of a ring *)

Lemma get_gap_angles_fst (c : RotatingArcCircle.t) :
  fst (RotatingArcCircle.get_gap_angles c)
  = py_fmod (RotatingArcCircle.arc_start c + RotatingArcCircle.arc_length c
             + RotatingArcCircle.body_angle c) TWO_PI.
Proof. reflexivity. Qed.

Lemma get_gap_angles_snd (c : RotatingArcCircle.t) :
  snd (RotatingArcCircle.get_gap_angles c)
  = py_fmod (RotatingArcCircle.arc_start c + RotatingArcCircle.body_angle c) TWO_PI.
Proof.
  unfold RotatingArcCircle.get_gap_angles; simpl.
  replace (RotatingArcCircle.arc_start c + 2 * PI + RotatingArcCircle.body_angle c)
    with (RotatingArcCircle.arc_start c + RotatingArcCircle.body_angle c
          + IZR 1 * TWO_PI) by (unfold TWO_PI; ring).
  apply py_fmod_period, TWO_PI_pos.
Qed.

(** X3: both gap boundaries lie in [[0, 2 PI)]; when the ring turns by
    [delta] each boundary moves by [delta] modulo [2 PI], so a whole number
    of turns changes nothing; and the gap is as wide as the circle minus the
    arc, modulo [2 PI]. *)
Theorem gap_angles_follow_rotation (c : RotatingArcCircle.t) (delta : R) (k : Z) :
  (0 <= fst (RotatingArcCircle.get_gap_angles c) < TWO_PI
   /\ 0 <= snd (RotatingArcCircle.get_gap_angles c) < TWO_PI)
  /\ fst (RotatingArcCircle.get_gap_angles (turned delta c))
     = py_fmod (fst (RotatingArcCircle.get_gap_angles c) + delta) TWO_PI
  /\ snd (RotatingArcCircle.get_gap_angles (turned delta c))
     = py_fmod (snd (RotatingArcCircle.get_gap_angles c) + delta) TWO_PI
  /\ RotatingArcCircle.get_gap_angles (turned (IZR k * TWO_PI) c)
     = RotatingArcCircle.get_gap_angles c
  /\ py_fmod (snd (RotatingArcCircle.get_gap_angles c)
              - fst (RotatingArcCircle.get_gap_angles c)) TWO_PI
     = py_fmod (2 * PI - RotatingArcCircle.arc_length c) TWO_PI.
Proof.
  split; [apply get_gap_angles_bounds|]. split; [|split; [|split]].
  - unfold RotatingArcCircle.get_gap_angles; simpl. rewrite py_fmod_add_l.
    f_equal; ring.
  - unfold RotatingArcCircle.get_gap_angles; simpl. rewrite py_fmod_add_l.
    f_equal; ring.
  - unfold RotatingArcCircle.get_gap_angles; simpl. f_equal.
    + rewrite <- Rplus_assoc. apply py_fmod_period, TWO_PI_pos.
    + rewrite <- Rplus_assoc. apply py_fmod_period, TWO_PI_pos.
  - unfold RotatingArcCircle.get_gap_angles; simpl. unfold py_fmod at 2 3.
    set (i := Int_part (_ / TWO_PI)). set (j := Int_part (_ / TWO_PI)).
    replace (_ - _ - _)
      with (2 * PI - RotatingArcCircle.arc_length c + IZR (j - i) * TWO_PI)
      by (rewrite minus_IZR; ring).
    apply py_fmod_period, TWO_PI_pos.
Qed.

Lemma angle_in_gap_offset (c : RotatingArcCircle.t) (t : R) :
  0 < RotatingArcCircle.arc_length c < TWO_PI -> 0 <= t <= TWO_PI ->
  angle_in_gap c (RotatingArcCircle.arc_start c + RotatingArcCircle.body_angle c + t)
  = true
  <-> t = 0 \/ RotatingArcCircle.arc_length c <= t.
Proof.
  intros HL Ht. unfold angle_in_gap.
  rewrite angle_in_range_iff, get_gap_angles_fst, get_gap_angles_snd,
    !py_fmod_idem.
  set (base := RotatingArcCircle.arc_start c + RotatingArcCircle.body_angle c).
  set (L := RotatingArcCircle.arc_length c) in *.
  replace (RotatingArcCircle.arc_start c + L + RotatingArcCircle.body_angle c)
    with (base + L) by (subst base; ring).
  rewrite <- (py_fmod_add_l base L), <- (py_fmod_add_l base t).
  pose proof (py_fmod_bounds base TWO_PI TWO_PI_pos) as Hr.
  set (r := py_fmod base TWO_PI) in *.
  destruct (Rlt_dec (r + L) TWO_PI) as [HrL|HrL];
    [rewrite (py_fmod_wrap_low (r + L)) by lra
    |rewrite (py_fmod_wrap_high (r + L)) by lra];
    (destruct (Rlt_dec (r + t) TWO_PI) as [Hrt|Hrt];
     [rewrite (py_fmod_wrap_low (r + t)) by lra
     |rewrite (py_fmod_wrap_high (r + t)) by lra]);
    split; intros H; lra.
Qed.

(** X4: the gap test of a ring with [0 < arc_length < 2 PI] accepts exactly
    the directions that the solid arc does not cover, and the two ends of
    the arc: the direction at offset [t] from the start of the arc passes
    for [t = 0] and for [arc_length <= t <= 2 PI], and fails for
    [0 < t < arc_length]. *)
Theorem gap_test_misses_solid_arc (c : RotatingArcCircle.t) (t : R) :
  0 < RotatingArcCircle.arc_length c < TWO_PI ->
  (0 < t < RotatingArcCircle.arc_length c ->
   angle_in_gap c (RotatingArcCircle.arc_start c + RotatingArcCircle.body_angle c + t)
   = false)
  /\ (RotatingArcCircle.arc_length c <= t <= TWO_PI ->
      angle_in_gap c (RotatingArcCircle.arc_start c + RotatingArcCircle.body_angle c + t)
      = true)
  /\ angle_in_gap c (RotatingArcCircle.arc_start c + RotatingArcCircle.body_angle c)
     = true.
Proof.
  intros HL. split; [|split].
  - intros Ht.
    destruct (angle_in_gap c _) eqn:E; [|reflexivity].
    apply angle_in_gap_offset in E; lra.
  - intros Ht. apply angle_in_gap_offset; lra.
  - replace (RotatingArcCircle.arc_start c + RotatingArcCircle.body_angle c)
      with (RotatingArcCircle.arc_start c + RotatingArcCircle.body_angle c + 0)
      by ring.
    apply angle_in_gap_offset; lra.
Qed.

Lemma gap_test_misses_solid_arc_witness :
  angle_in_gap (sample_ring 0) (0 + 0 + PI) = false.
Proof.
  pose proof PI_bounds.
  destruct (gap_test_misses_solid_arc (sample_ring 0) PI) as (H1 & _).
  - unfold TWO_PI; simpl; lra.
  - apply H1. simpl; lra.
Defined.

(** ** Construction of arcs, balls and particles *)

(** X5: for a positive number of segments the constructor of an arc builds
    [segments + 1] points, all on the circle of the ring's radius, the first
    at [arc_start] and the last at [arc_start + arc_length], and [segments]
    collision segments, segment [i] joining point [i] to point [i + 1]. *)
Theorem arc_points_chain (radius arc_start arc_length : R) (segments : Z) :
  (0 < segments)%Z ->
  exists points segs,
    arc_points radius arc_start arc_length segments = Some points
    /\ arc_segments points segments = Some segs
    /\ length points = S (Z.to_nat segments)
    /\ length segs = Z.to_nat segments
    /\ (forall p, In p points -> fst p * fst p + snd p * snd p = radius * radius)
    /\ nth_error points 0 = Some (radius * cos arc_start, radius * sin arc_start)
    /\ nth_error points (Z.to_nat segments)
       = Some (radius * cos (arc_start + arc_length),
               radius * sin (arc_start + arc_length))
    /\ (forall i, (i < Z.to_nat segments)%nat ->
                  exists p q, nth_error points i = Some p
                              /\ nth_error points (S i) = Some q
                              /\ nth_error segs i = Some (p, q)).
Proof. intros Hs. apply arc_points_positive; exact Hs. Qed.

Lemma arc_points_chain_witness :
  exists points,
    arc_points 300 0 (2 * PI * (17 / 20)) 20 = Some points
    /\ length points = 21%nat.
Proof.
  destruct (arc_points_chain 300 0 (2 * PI * (17 / 20)) 20)
    as (points & segs & Hp & _ & Hl & _).
  - lia.
  - exists points. split; [exact Hp | exact Hl].
Defined.

(** X6: with zero segments the constructor of an arc raises (division by
    zero on the first point); with a negative number it builds no point and
    no segment and does not raise. *)
Theorem arc_points_degenerate (radius arc_start arc_length : R) (n : positive) :
  arc_points radius arc_start arc_length 0 = None
  /\ arc_points radius arc_start arc_length (Z.neg n) = Some []
  /\ arc_segments [] (Z.neg n) = Some [].
Proof.
  split; [reflexivity|].
  unfold arc_points, arc_segments, py_range.
  replace (Z.to_nat (Z.neg n + 1 - 0)) with O by lia.
  replace (Z.to_nat (Z.neg n - 0)) with O by lia.
  split; reflexivity.
Qed.

(** X7: a new ball sits where it is told, has the given radius, and its
    initial velocity has exactly the given speed, whatever direction the
    random draw picks. *)
Theorem ball_init_speed (draws : nat -> R) (cur : nat) (position : R * R)
        (radius speed : R) :
  Ball.pos_x (Ball.init draws cur position radius speed) = fst position
  /\ Ball.pos_y (Ball.init draws cur position radius speed) = snd position
  /\ Ball.radius (Ball.init draws cur position radius speed) = radius
  /\ Ball.vel_x (Ball.init draws cur position radius speed)
     * Ball.vel_x (Ball.init draws cur position radius speed)
     + Ball.vel_y (Ball.init draws cur position radius speed)
       * Ball.vel_y (Ball.init draws cur position radius speed)
     = speed * speed.
Proof.
  repeat split. simpl. apply on_circle.
Qed.

Lemma create_balls_In (cfg : Config) (n : nat) :
  forall i cur b,
    In b (create_balls cfg n i cur) ->
    exists theta k,
      b = Ball.init (rng cfg) k
            (center_x cfg + base_radius_val cfg * cos theta,
             center_y cfg + base_radius_val cfg * sin theta)
            (ball_radius cfg) (ball_speed cfg).
Proof.
  induction n as [|n IH]; intros i cur b H; simpl in H; [contradiction|].
  destruct H as [<-|H]; [eauto | apply (IH _ _ _ H)].
Qed.

(** X8: the ball loop of the setup creates [initial_balls] balls (none for
    a negative count), and they are the balls of the state in which the loop
    starts; each has the configured radius and speed, and its centre exactly
    on the circle of the innermost ring: at distance [base_radius_val] from
    the common centre when that is not negative. *)
Theorem initial_balls_on_inner_ring (cfg : Config) (countdown : R) (b : Ball.t) :
  In b (create_balls cfg (Z.to_nat (initial_balls cfg)) 0 0) ->
  length (create_balls cfg (Z.to_nat (initial_balls cfg)) 0 0)
  = Z.to_nat (initial_balls cfg)
  /\ (forall st0, initial_state cfg countdown = Some st0 ->
                  balls st0 = create_balls cfg (Z.to_nat (initial_balls cfg)) 0 0)
  /\ Ball.radius b = ball_radius cfg
  /\ Ball.vel_x b * Ball.vel_x b + Ball.vel_y b * Ball.vel_y b
     = ball_speed cfg * ball_speed cfg
  /\ radial_dx cfg b * radial_dx cfg b + radial_dy cfg b * radial_dy cfg b
     = base_radius_val cfg * base_radius_val cfg
  /\ (0 <= base_radius_val cfg -> radial_length cfg b = base_radius_val cfg).
Proof.
  intros H.
  split; [apply create_balls_length|].
  split; [intros st0 H0; apply (initial_state_inv cfg countdown st0 H0)|].
  destruct (create_balls_In _ _ _ _ _ H) as (theta & k & ->).
  split; [reflexivity|]. split; [apply on_circle|].
  assert (Hsq : radial_dx cfg
                  (Ball.init (rng cfg) k
                     (center_x cfg + base_radius_val cfg * cos theta,
                      center_y cfg + base_radius_val cfg * sin theta)
                     (ball_radius cfg) (ball_speed cfg))
                = base_radius_val cfg * cos theta
                /\ radial_dy cfg
                     (Ball.init (rng cfg) k
                        (center_x cfg + base_radius_val cfg * cos theta,
                         center_y cfg + base_radius_val cfg * sin theta)
                        (ball_radius cfg) (ball_speed cfg))
                   = base_radius_val cfg * sin theta).
  { unfold radial_dx, radial_dy; simpl; split; ring. }
  destruct Hsq as [Hx Hy]. split.
  - rewrite Hx, Hy. apply on_circle.
  - intros Hb. unfold radial_length. rewrite Hx, Hy, on_circle.
    apply sqrt_square; exact Hb.
Qed.

Lemma initial_balls_on_inner_ring_witness :
  length (create_balls (sample_config 2)
                       (Z.to_nat (initial_balls (sample_config 2))) 0 0) = 2%nat.
Proof.
  destruct (initial_balls_on_inner_ring (sample_config 2) 60
              (Ball.init (rng (sample_config 2)) 0
                 (center_x (sample_config 2)
                  + base_radius_val (sample_config 2) * cos (2 * PI * INR 0 / IZR 2),
                  center_y (sample_config 2)
                  + base_radius_val (sample_config 2) * sin (2 * PI * INR 0 / IZR 2))
                 (ball_radius (sample_config 2)) (ball_speed (sample_config 2))))
    as (Hl & _).
  - left; reflexivity.
  - exact Hl.
Defined.

Lemma uniform_bounds (draws : nat -> R) (cur : nat) (a b : R) :
  unit_draws draws -> a <= b -> a <= uniform draws cur a b <= b.
Proof.
  intros Hu Hab. unfold uniform. specialize (Hu cur). nra.
Qed.

(** X9: when the setup does not raise, it has created [num_arcs] rings (none
    for a negative count); if there is a ring at all, the number of segments
    per arc is not zero; ring [k] has radius [base + k * spacing], has not
    turned yet and is active; its solid arc covers between 80% and 90% of
    the circle, so [0 < arc_length < 2 PI], and it turns at a speed between
    [PI/4] and [PI/2] in one of the two directions. *)
Theorem initial_rings_shape (cfg : Config) (countdown : R) (st0 : State)
        (k : nat) (c : RotatingArcCircle.t) :
  unit_draws (rng cfg) ->
  initial_state cfg countdown = Some st0 ->
  nth_error (circles st0) k = Some c ->
  arc_smoothness cfg <> 0%Z
  /\ length (circles st0) = Z.to_nat (num_arcs cfg)
  /\ RotatingArcCircle.radius c = base_radius_val cfg + INR k * ball_radius cfg
  /\ RotatingArcCircle.active c = true
  /\ RotatingArcCircle.body_angle c = 0
  /\ 2 * PI * (8 / 10) <= RotatingArcCircle.arc_length c <= 2 * PI * (9 / 10)
  /\ 0 < RotatingArcCircle.arc_length c < TWO_PI
  /\ 0 <= RotatingArcCircle.arc_start c <= 2 * PI
  /\ PI / 4 <= Rabs (RotatingArcCircle.angular_velocity c) <= PI / 2.
Proof.
  intros Hu H0 H.
  destruct (initial_state_inv cfg countdown st0 H0) as (_ & Hcs & _).
  pose proof (create_circles_length _ _ _ _ _ Hcs) as Hlen.
  split.
  { intros Hs.
    assert (Hk : (k < length (circles st0))%nat) by (apply nth_error_Some; congruence).
    rewrite (initial_state_raises cfg countdown Hs) in H0; [discriminate | lia]. }
  split; [exact Hlen|].
  destruct (create_circles_nth _ _ _ _ _ _ _ Hcs H) as (u1 & u2 & u3 & u4 & ->). simpl.
  pose proof PI_bounds as Hpi.
  pose proof (uniform_bounds (rng cfg) u1 (8 / 10) (9 / 10) Hu ltac:(lra)) as H1.
  pose proof (uniform_bounds (rng cfg) u2 0 (2 * PI) Hu ltac:(lra)) as H2.
  pose proof (uniform_bounds (rng cfg) u3 (PI / 4) (PI / 2) Hu ltac:(lra)) as H3.
  split; [reflexivity|]. split; [reflexivity|]. split; [reflexivity|].
  split; [nra|]. split; [unfold TWO_PI; nra|]. split; [exact H2|].
  destruct (Rltb (rng cfg u4) (1 / 2)).
  - rewrite Rabs_Ropp, Rabs_right; lra.
  - rewrite Rabs_right; lra.
Qed.

Lemma initial_rings_shape_witness :
  exists st0 c,
    initial_state (sample_config 2) 60 = Some st0
    /\ nth_error (circles st0) 0 = Some c
    /\ RotatingArcCircle.active c = true.
Proof.
  destruct (initial_state_some (sample_config 2) 60) as [st0 H0]; [simpl; lia|].
  destruct (initial_state_inv _ _ _ H0) as (_ & Hcs & _).
  pose proof (create_circles_length _ _ _ _ _ Hcs) as Hlen.
  destruct (nth_error_in_bounds (circles st0) 0) as [c Hc];
    [rewrite Hlen; simpl; lia|].
  exists st0, c. split; [exact H0|]. split; [exact Hc|].
  destruct (initial_rings_shape (sample_config 2) 60 st0 0 c) as (_ & _ & _ & Ha & _).
  - intros n; simpl; lra.
  - exact H0.
  - exact Hc.
  - exact Ha.
Defined.

(** X23: the setup raises (division by zero in the constructor of the first
    arc) when the number of segments per arc is 0 and at least one arc is
    asked for; it goes through when the number of segments is not 0, whatever
    its sign, and when no arc is asked for. *)
Theorem setup_raises_without_segments (cfg : Config) (countdown : R) :
  (arc_smoothness cfg = 0%Z -> (0 < num_arcs cfg)%Z ->
   initial_state cfg countdown = None)
  /\ (arc_smoothness cfg <> 0%Z ->
      exists st0, initial_state cfg countdown = Some st0)
  /\ ((num_arcs cfg <= 0)%Z ->
      exists st0, initial_state cfg countdown = Some st0 /\ circles st0 = []).
Proof.
  split; [apply initial_state_raises|]. split; [apply initial_state_some|].
  intros Hn. unfold initial_state.
  replace (Z.to_nat (num_arcs cfg)) with O by lia. simpl. eauto.
Qed.

Lemma spawn_particles_In (cfg : Config) (c : RotatingArcCircle.t) (n : nat) :
  forall cur p,
    In p (spawn_particles cfg c n cur) ->
    exists k1 k2,
      p = Particle.mk
            (center_x cfg + RotatingArcCircle.radius c
               * cos (uniform (rng cfg) k1
                        (RotatingArcCircle.arc_start c + RotatingArcCircle.body_angle c)
                        (RotatingArcCircle.arc_start c + RotatingArcCircle.arc_length c
                         + RotatingArcCircle.body_angle c)))
            (center_y cfg + RotatingArcCircle.radius c
               * sin (uniform (rng cfg) k1
                        (RotatingArcCircle.arc_start c + RotatingArcCircle.body_angle c)
                        (RotatingArcCircle.arc_start c + RotatingArcCircle.arc_length c
                         + RotatingArcCircle.body_angle c)))
            (uniform (rng cfg) k2 50 150
             * cos (uniform (rng cfg) k1
                      (RotatingArcCircle.arc_start c + RotatingArcCircle.body_angle c)
                      (RotatingArcCircle.arc_start c + RotatingArcCircle.arc_length c
                       + RotatingArcCircle.body_angle c)))
            (uniform (rng cfg) k2 50 150
             * sin (uniform (rng cfg) k1
                      (RotatingArcCircle.arc_start c + RotatingArcCircle.body_angle c)
                      (RotatingArcCircle.arc_start c + RotatingArcCircle.arc_length c
                       + RotatingArcCircle.body_angle c)))
            1.
Proof.
  induction n as [|n IH]; intros cur p H; simpl in H; [contradiction|].
  destruct H as [<-|H]; [eauto | apply (IH _ _ H)].
Qed.

Lemma spawn_particles_length (cfg : Config) (c : RotatingArcCircle.t) (n cur : nat) :
  length (spawn_particles cfg c n cur) = n.
Proof. revert cur; induction n; intros; simpl; auto. Qed.

(** X10: the batch of a vanishing ring holds exactly the asked number of
    particles; each starts with lifetime 1 on the ring's circle, at an
    offset between 0 and [arc_length] from the start of the solid arc (on
    the arc, not in the gap), and flies straight outward from the common
    centre at a speed between 50 and 150. *)
Theorem particle_batch_on_solid_arc (cfg : Config) (c : RotatingArcCircle.t)
        (n cur : nat) (p : Particle.t) :
  unit_draws (rng cfg) ->
  0 <= RotatingArcCircle.arc_length c ->
  In p (spawn_particles cfg c n cur) ->
  length (spawn_particles cfg c n cur) = n
  /\ Particle.lifetime p = 1
  /\ exists t s,
      0 <= t <= RotatingArcCircle.arc_length c
      /\ 50 <= s <= 150
      /\ on_ring cfg c (Particle.pos_x p) (Particle.pos_y p) t
      /\ RotatingArcCircle.radius c * Particle.vel_x p
         = s * (Particle.pos_x p - center_x cfg)
      /\ RotatingArcCircle.radius c * Particle.vel_y p
         = s * (Particle.pos_y p - center_y cfg)
      /\ Particle.vel_x p * Particle.vel_x p + Particle.vel_y p * Particle.vel_y p
         = s * s.
Proof.
  intros Hu HL H. split; [apply spawn_particles_length|].
  destruct (spawn_particles_In _ _ _ _ _ H) as (k1 & k2 & ->). simpl.
  split; [reflexivity|].
  exists (RotatingArcCircle.arc_length c * rng cfg k1), (uniform (rng cfg) k2 50 150).
  pose proof (Hu k1) as Hk1.
  assert (Hang : uniform (rng cfg) k1
                   (RotatingArcCircle.arc_start c + RotatingArcCircle.body_angle c)
                   (RotatingArcCircle.arc_start c + RotatingArcCircle.arc_length c
                    + RotatingArcCircle.body_angle c)
                 = RotatingArcCircle.arc_start c + RotatingArcCircle.body_angle c
                   + RotatingArcCircle.arc_length c * rng cfg k1).
  { unfold uniform; ring. }
  rewrite Hang.
  split; [nra|]. split; [apply uniform_bounds; [exact Hu | lra]|].
  split; [split; reflexivity|]. split; [ring|]. split; [ring|]. apply on_circle.
Qed.

Lemma particle_batch_on_solid_arc_witness :
  length (spawn_particles (sample_config 1) (sample_ring 0) 2 0) = 2%nat.
Proof.
  pose proof PI_bounds.
  destruct (particle_batch_on_solid_arc (sample_config 1) (sample_ring 0) 2 0
              (Particle.mk (0 + (10 + 0) * cos (uniform (fun _ => 0) 0 (0 + 0)
                                                        (0 + 2 * PI * (17 / 20) + 0)))
                           (0 + (10 + 0) * sin (uniform (fun _ => 0) 0 (0 + 0)
                                                        (0 + 2 * PI * (17 / 20) + 0)))
                           (uniform (fun _ => 0) 1 50 150
                            * cos (uniform (fun _ => 0) 0 (0 + 0)
                                           (0 + 2 * PI * (17 / 20) + 0)))
                           (uniform (fun _ => 0) 1 50 150
                            * sin (uniform (fun _ => 0) 0 (0 + 0)
                                           (0 + 2 * PI * (17 / 20) + 0)))
                           1)) as (Hl & _).
  - intros k; simpl; lra.
  - simpl; lra.
  - left; reflexivity.
  - exact Hl.
Defined.

(** ** The ring manager as a whole *)

Lemma vanish_same_counters (cfg : Config) (pos : nat) (c : RotatingArcCircle.t)
      (st : State) :
  same_counters st (vanish cfg pos c st).
Proof. unfold vanish, same_counters; destruct (sounds_loaded cfg); repeat split. Qed.

Lemma same_counters_trans (st1 st2 st3 : State) :
  same_counters st1 st2 -> same_counters st2 st3 -> same_counters st1 st3.
Proof. unfold same_counters; intuition congruence. Qed.

Lemma py_get_pos {A : Type} (l : list A) (i : Z) (x : A) :
  py_get l i = Some x -> nth_error l (py_pos l i) = Some x.
Proof.
  unfold py_get, py_pos. destruct (0 <=? i)%Z; [auto|].
  destruct (- Z.of_nat (length l) <=? i)%Z; [auto | discriminate].
Qed.

Lemma count_active_list_set (l : list RotatingArcCircle.t) :
  forall (n : nat) (c : RotatingArcCircle.t),
    nth_error l n = Some c -> RotatingArcCircle.active c = true ->
    S (count_active (list_set l n (RotatingArcCircle.remove c))) = count_active l.
Proof.
  unfold count_active.
  induction l as [|h t IH]; intros n c Hn Ha; [destruct n; discriminate|].
  destruct n as [|n]; simpl in *.
  - injection Hn as ->. rewrite Ha. reflexivity.
  - destruct (RotatingArcCircle.active h); simpl; rewrite (IH n c Hn Ha); reflexivity.
Qed.

Lemma vanish_particles_length (cfg : Config) (pos : nat) (c : RotatingArcCircle.t)
      (st : State) :
  length (particles (vanish cfg pos c st))
  = (length (particles st) + Z.to_nat (particle_count cfg))%nat.
Proof.
  unfold vanish; destruct (sounds_loaded cfg); simpl;
    rewrite length_app, spawn_particles_length; reflexivity.
Qed.

Lemma skip_loop_account (cfg : Config) (idxs : list Z) :
  forall st st',
    skip_loop cfg idxs st = Some st' ->
    same_counters st st'
    /\ (length (particles st') + Z.to_nat (particle_count cfg) * count_active (circles st')
        = length (particles st) + Z.to_nat (particle_count cfg) * count_active (circles st))%nat.
Proof.
  induction idxs as [|i rest IH]; intros st st' H; simpl in H.
  - injection H as <-. split; [repeat split | reflexivity].
  - destruct (py_get (circles st) i) as [c|] eqn:Hg; [|discriminate].
    destruct (RotatingArcCircle.active c) eqn:Ha; [|apply IH; exact H].
    destruct (IH _ _ H) as [Hc Hn]. split.
    + apply (same_counters_trans _ _ _ (vanish_same_counters cfg _ c st) Hc).
    + rewrite Hn, vanish_particles_length, vanish_circles.
      rewrite <- (count_active_list_set (circles st) _ c (py_get_pos _ _ _ Hg) Ha).
      lia.
Qed.

Lemma precise_breach_account (cfg : Config) (st st' : State) :
  precise_breach cfg st = Some st' ->
  same_counters st st'
  /\ (length (particles st') + Z.to_nat (particle_count cfg) * count_active (circles st')
      = length (particles st) + Z.to_nat (particle_count cfg) * count_active (circles st))%nat.
Proof.
  unfold precise_breach.
  destruct (active_circle_index st <? len_circles st)%Z;
    [|intros [= <-]; split; [repeat split | reflexivity]].
  destruct (py_get (circles st) (active_circle_index st)) as [c|] eqn:Hg;
    [|discriminate].
  destruct (RotatingArcCircle.active c) eqn:Ha;
    [|intros [= <-]; split; [repeat split | reflexivity]].
  destruct (find (breach_test cfg c) (balls st));
    [|intros [= <-]; split; [repeat split | reflexivity]].
  intros H.
  pose proof (vanish_same_counters cfg
                (py_pos (circles st) (active_circle_index st)) c st) as Hc.
  pose proof (vanish_particles_length cfg
                (py_pos (circles st) (active_circle_index st)) c st) as Hp.
  pose proof (vanish_circles cfg
                (py_pos (circles st) (active_circle_index st)) c st) as Hcs.
  pose proof (count_active_list_set (circles st) _ c (py_get_pos _ _ _ Hg) Ha) as Hn.
  set (v := vanish cfg _ c st) in *. clearbody v.
  injection H as <-. cbn [particles circles set_balls set_active_circle_index
                          ball_hits time_left running game_won].
  split; [exact Hc|]. rewrite Hp, Hcs. lia.
Qed.

Lemma ring_manager_account (cfg : Config) (st st' : State) :
  ring_manager cfg st = Some st' ->
  same_counters st st'
  /\ (length (particles st') + Z.to_nat (particle_count cfg) * count_active (circles st')
      = length (particles st) + Z.to_nat (particle_count cfg) * count_active (circles st))%nat.
Proof.
  unfold ring_manager.
  destruct (escape_scan cfg (balls st) (active_circle_index st)) as [m|];
    [|discriminate].
  destruct (m >? active_circle_index st)%Z.
  - destruct (skip_loop cfg _ st) as [st1|] eqn:Hs; [|discriminate].
    intros [= <-]. apply (skip_loop_account _ _ _ _ Hs).
  - apply precise_breach_account.
Qed.

(** X11: every ring that goes in a tick, on either path, yields exactly
    [particle_count] new particles (none for a negative count), and the ring
    manager creates no other particle; it leaves the hit counter, the clock
    and the loop flags alone. *)
Theorem particles_per_destroyed_ring (cfg : Config) (st st' : State) :
  ring_manager cfg st = Some st' ->
  (count_active (circles st') <= count_active (circles st))%nat
  /\ length (particles st')
     = (length (particles st)
        + Z.to_nat (particle_count cfg)
          * (count_active (circles st) - count_active (circles st')))%nat
  /\ ball_hits st' = ball_hits st
  /\ time_left st' = time_left st
  /\ running st' = running st
  /\ game_won st' = game_won st.
Proof.
  intros H. destruct (ring_manager_account cfg st st' H) as [(Hh & Ht & Hr & Hgw) Hn].
  assert (Hle : (count_active (circles st') <= count_active (circles st))%nat).
  { revert H. unfold ring_manager.
    destruct (escape_scan cfg (balls st) (active_circle_index st)) as [m|];
      [|discriminate].
    assert (Hskip : forall idxs s s', skip_loop cfg idxs s = Some s' ->
                      (count_active (circles s') <= count_active (circles s))%nat).
    { induction idxs as [|i rest IH]; intros s s' Hs; simpl in Hs.
      - injection Hs as <-; lia.
      - destruct (py_get (circles s) i) as [c|] eqn:Hg; [|discriminate].
        destruct (RotatingArcCircle.active c) eqn:Ha; [|apply IH; exact Hs].
        apply IH in Hs. rewrite vanish_circles in Hs.
        pose proof (count_active_list_set (circles s) _ c (py_get_pos _ _ _ Hg) Ha).
        lia. }
    destruct (m >? active_circle_index st)%Z.
    - destruct (skip_loop cfg _ st) as [st1|] eqn:Hs; [|discriminate].
      intros [= <-]. apply (Hskip _ _ _ Hs).
    - unfold precise_breach.
      destruct (active_circle_index st <? len_circles st)%Z;
        [|intros [= <-]; lia].
      destruct (py_get (circles st) (active_circle_index st)) as [c|] eqn:Hg;
        [|discriminate].
      destruct (RotatingArcCircle.active c) eqn:Ha; [|intros [= <-]; lia].
      destruct (find (breach_test cfg c) (balls st)); [|intros [= <-]; lia].
      intros H0.
      pose proof (vanish_circles cfg
                    (py_pos (circles st) (active_circle_index st)) c st) as Hcs.
      pose proof (count_active_list_set (circles st) _ c (py_get_pos _ _ _ Hg) Ha).
      set (v := vanish cfg _ c st) in *. clearbody v.
      injection H0 as <-. cbn [circles set_balls set_active_circle_index].
      rewrite Hcs. lia. }
  split; [exact Hle|]. repeat split; auto. nia.
Qed.

Lemma particles_per_destroyed_ring_witness :
  exists st',
    ring_manager (sample_config 1) skip_state = Some st'
    /\ ball_hits st' = 0%Z.
Proof.
  destruct (ring_manager_total (sample_config 1) skip_state) as [st' Hrun].
  - apply sample_config_radius.
  - simpl; lia.
  - exists st'. split; [exact Hrun|].
    destruct (particles_per_destroyed_ring (sample_config 1) skip_state st' Hrun)
      as (_ & _ & Hh & _).
    exact Hh.
Defined.

Lemma after_skip_ext (lo h1 h2 : Z) (i : nat) (c : RotatingArcCircle.t) :
  (Z.of_nat i <? h1)%Z = (Z.of_nat i <? h2)%Z ->
  after_skip lo h1 i c = after_skip lo h2 i c.
Proof. intros H; unfold after_skip; rewrite H; reflexivity. Qed.

(** The rings after a tick, in all three cases. *)
Lemma ring_manager_circles (cfg : Config) (st st' : State) :
  (0 <= active_circle_index st)%Z ->
  ring_manager cfg st = Some st' ->
  (active_circle_index st <= active_circle_index st')%Z
  /\ length (circles st') = length (circles st)
  /\ forall i c, nth_error (circles st) i = Some c ->
                 nth_error (circles st') i
                 = Some (after_skip (active_circle_index st)
                                    (active_circle_index st') i c).
Proof.
  intros Ha. unfold ring_manager.
  destruct (escape_scan cfg (balls st) (active_circle_index st)) as [m|];
    [|discriminate].
  destruct (m >? active_circle_index st)%Z eqn:Em.
  - apply Z.gtb_lt in Em. unfold py_range.
    set (hi := Z.min m (len_circles st)).
    destruct (Z_le_gt_dec (active_circle_index st) hi) as [Hle|Hgt].
    + destruct (skip_loop_spec cfg (Z.to_nat (hi - active_circle_index st))
                  (active_circle_index st) st Ha)
        as (st1 & Hrun & _ & _ & _ & _ & Hl & Hnth).
      { rewrite Z2Nat.id by lia. subst hi; lia. }
      rewrite Hrun. intros [= <-]. simpl. split; [lia|]. split; [exact Hl|].
      intros i c Hc. rewrite (Hnth i c Hc). f_equal. rewrite Z2Nat.id by lia.
      assert (Hi : (Z.of_nat i < len_circles st)%Z).
      { unfold len_circles. apply Nat2Z.inj_lt, nth_error_Some. congruence. }
      apply after_skip_ext. subst hi.
      destruct (Z.of_nat i <? m)%Z eqn:E.
      * apply Z.ltb_lt in E. apply Z.ltb_lt. lia.
      * apply Z.ltb_ge in E. apply Z.ltb_ge. lia.
    + replace (Z.to_nat (hi - active_circle_index st)) with O by lia. simpl.
      intros [= <-]. simpl. split; [lia|]. split; [reflexivity|].
      intros i c Hc. rewrite Hc. f_equal. unfold after_skip.
      destruct (_ && _) eqn:E; [|reflexivity].
      apply andb_true_iff in E; destruct E as [E1 E2].
      apply Z.leb_le in E1; apply Z.ltb_lt in E2.
      assert (Hi : (Z.of_nat i < len_circles st)%Z).
      { unfold len_circles. apply Nat2Z.inj_lt, nth_error_Some. congruence. }
      subst hi. lia.
  - intros Hp.
    assert (Hidle : st' = st ->
                    (active_circle_index st <= active_circle_index st')%Z
                    /\ length (circles st') = length (circles st)
                    /\ forall i c, nth_error (circles st) i = Some c ->
                                   nth_error (circles st') i
                                   = Some (after_skip (active_circle_index st)
                                             (active_circle_index st') i c)).
    { intros ->. split; [lia|]. split; [reflexivity|].
      intros i c Hc. rewrite Hc. f_equal. unfold after_skip.
      destruct (_ && _) eqn:E; [|reflexivity].
      apply andb_true_iff in E; destruct E as [E1 E2].
      apply Z.leb_le in E1; apply Z.ltb_lt in E2. lia. }
    destruct (target_ring st) as [c0|] eqn:Ht.
    + destruct (find (breach_test cfg c0) (balls st)) as [b|] eqn:Ef.
      * destruct (find_some _ _ Ef) as [Hin Hb]. apply breach_test_true in Hb.
        destruct (precise_breach_fires cfg st c0 b Ha Ht Hin Hb)
          as (st1 & _ & _ & _ & Hrun & _ & _ & _ & Hcs & Hai & _).
        assert (st1 = st') by congruence; subst st1.
        split; [lia|]. split; [rewrite Hcs; apply list_set_length|].
        intros i c Hc. rewrite Hcs, (nth_error_list_set _ _ _ _ _ Hc), Hai.
        f_equal. unfold after_skip.
        destruct (Nat.eqb i (Z.to_nat (active_circle_index st))) eqn:Ei.
        -- apply Nat.eqb_eq in Ei.
           destruct (target_ring_nth st c0 Ht) as (Hn0 & _ & _).
           assert (c = c0) by (subst i; congruence). subst c.
           replace (_ && _) with true; [reflexivity|].
           symmetry; apply andb_true_iff; split; [apply Z.leb_le|apply Z.ltb_lt]; lia.
        -- apply Nat.eqb_neq in Ei.
           destruct (_ && _) eqn:E; [|reflexivity].
           apply andb_true_iff in E; destruct E as [E1 E2].
           apply Z.leb_le in E1; apply Z.ltb_lt in E2. lia.
      * apply Hidle. rewrite precise_breach_idle in Hp; [congruence | exact Ha|].
        intros c' Hc' b Hin. rewrite Ht in Hc'. injection Hc' as <-.
        apply breach_test_false, (find_none_all _ _ Ef b Hin).
    + apply Hidle. rewrite precise_breach_idle in Hp; [congruence | exact Ha|].
      intros c' Hc'; rewrite Ht in Hc'; discriminate.
Qed.

(** ** Invariants of the loop *)

Lemma end_of_round_test_circles (st : State) :
  circles (end_of_round_test st) = circles st.
Proof. unfold end_of_round_test; destruct (round_verdict _ _ _); reflexivity. Qed.

Lemma after_step_inv (cfg : Config) (st st' : State) :
  after_step cfg st = Some st' ->
  exists st1, ring_manager cfg st = Some st1
              /\ circles st' = circles st1
              /\ active_circle_index st' = active_circle_index st1
              /\ ball_hits st' = ball_hits st1
              /\ time_left st' = time_left st1.
Proof.
  unfold after_step.
  destruct (ring_manager cfg st) as [st1|]; [|discriminate].
  intros [= <-]. exists st1. split; [reflexivity|].
  rewrite end_of_round_test_circles.
  destruct (end_of_round_test_frame
              (set_particles (particle_pass dt (particles st1)) st1))
    as (_ & Ha & Hh & _).
  rewrite Ha, Hh. unfold end_of_round_test.
  destruct (round_verdict _ _ _); repeat split.
Qed.

Lemma ball_ball_collision_frame (cfg : Config) (arbiter : Arbiter)
      (st st' : State) (r : bool) :
  ball_ball_collision cfg arbiter st = Some (st', r) ->
  circles st' = circles st
  /\ active_circle_index st' = active_circle_index st
  /\ time_left st' = time_left st
  /\ (ball_hits st <= ball_hits st')%Z.
Proof.
  unfold ball_ball_collision.
  destruct (length (balls st) <? 100)%nat;
    [|intros [= <- <-]; repeat split; lia].
  set (st2 := if sounds_loaded cfg then _ else _).
  assert (Hst2 : circles st2 = circles st
                 /\ active_circle_index st2 = active_circle_index st
                 /\ time_left st2 = time_left st
                 /\ ball_hits st2 = (ball_hits st + 1)%Z).
  { subst st2; destruct (sounds_loaded cfg); repeat split. }
  destruct Hst2 as (Hc & Ha & Ht & Hh).
  destruct (if (active_circle_index st2 <? len_circles st2)%Z then _ else _)
    as [Renc|]; [|discriminate].
  destruct (candidate_loop cfg Renc _ _ 20 (rng_pos st2) None) as [[cand|] cur];
    [|discriminate].
  intros [= <- <-]. simpl. rewrite Hc, Ha, Ht, Hh. repeat split; lia.
Qed.

Lemma Forall2_nth_error_r {A B : Type} (P : A -> B -> Prop) (l : list A) (l' : list B) :
  Forall2 P l l' ->
  forall i y, nth_error l' i = Some y -> exists x, nth_error l i = Some x /\ P x y.
Proof.
  induction 1 as [|x y l l' Hxy _ IH]; intros i z Hi.
  - destruct i; discriminate.
  - destruct i as [|i]; simpl in *.
    + injection Hi as <-. eauto.
    + apply IH; exact Hi.
Qed.

Lemma step_rings_match_index (cfg : Config) (st st' : State) :
  step cfg st st' ->
  (0 <= active_circle_index st)%Z -> rings_match_index st ->
  rings_match_index st' /\ length (circles st') = length (circles st).
Proof.
  intros H Ha Hinv.
  destruct H as [quit st | st bs cs Hbs Hcs | st | arb st st' r Hc | st st' Hs].
  - split; [|unfold begin_iteration; destruct quit; reflexivity].
    intros i c Hi. unfold begin_iteration in *.
    destruct quit; simpl in *; apply (Hinv i c Hi).
  - split; [|apply (Forall2_same_length _ _ _ Hcs)].
    intros i c Hi. simpl in Hi.
    destruct (Forall2_nth_error_r _ _ _ Hcs i c Hi) as (c0 & Hc0 & Hsame).
    destruct Hsame as (_ & _ & _ & _ & Hact). rewrite Hact. simpl.
    apply (Hinv i c0 Hc0).
  - split; [|unfold ball_arc_collision; destruct (sounds_loaded cfg); reflexivity].
    intros i c Hi. unfold ball_arc_collision in *.
    destruct (sounds_loaded cfg); simpl in *; apply (Hinv i c Hi).
  - destruct (ball_ball_collision_frame _ _ _ _ _ Hc) as (Hcs & Hai & _).
    split; [|rewrite Hcs; reflexivity].
    intros i c Hi. rewrite Hcs in Hi. rewrite Hai. apply Hinv; exact Hi.
  - destruct (after_step_inv _ _ _ Hs) as (st1 & Hrun & Hcs & Hai & _).
    destruct (ring_manager_circles cfg st st1 Ha Hrun) as (Hmono & Hlen & Hnth).
    split; [|rewrite Hcs; exact Hlen].
    intros i c Hi. rewrite Hcs in Hi. rewrite Hai.
    destruct (nth_error (circles st) i) as [c0|] eqn:Hc0.
    + rewrite (Hnth i c0 Hc0) in Hi. injection Hi as <-.
      pose proof (Hinv i c0 Hc0) as Hact. unfold after_skip.
      destruct ((active_circle_index st <=? Z.of_nat i)%Z
                && (Z.of_nat i <? active_circle_index st1)%Z) eqn:E.
      * apply andb_true_iff in E; destruct E as [E1 E2].
        apply Z.ltb_lt in E2. simpl. symmetry; apply Z.leb_gt; exact E2.
      * rewrite Hact. apply andb_false_iff in E; destruct E as [E|E].
        -- rewrite E. symmetry. apply Z.leb_gt in E. apply Z.leb_gt; lia.
        -- apply Z.ltb_ge in E.
           replace (active_circle_index st1 <=? Z.of_nat i)%Z with true
             by (symmetry; apply Z.leb_le; exact E).
           apply Z.leb_le; lia.
    + exfalso. apply nth_error_None in Hc0.
      assert (i < length (circles st1))%nat by (apply nth_error_Some; congruence).
      lia.
Qed.

Lemma count_active_by_index (l : list RotatingArcCircle.t) :
  forall k : nat,
    (forall i c, nth_error l i = Some c ->
                 RotatingArcCircle.active c = (k <=? i)%nat) ->
    count_active l = (length l - k)%nat.
Proof.
  unfold count_active.
  induction l as [|h t IH]; intros k H; [reflexivity|].
  pose proof (H 0%nat h eq_refl) as Hh. simpl.
  destruct k as [|k].
  - rewrite Hh. simpl. rewrite (IH 0%nat); [lia|].
    intros i c Hi. rewrite (H (S i) c Hi). reflexivity.
  - rewrite Hh. simpl. apply IH.
    intros i c Hi. rewrite (H (S i) c Hi). reflexivity.
Qed.

(** X12: in every reachable state the number of rings is the one of the
    setup, the active index is not negative, and a ring is active exactly
    when its index is at or past the active index: every ring before the
    index has been destroyed, none from the index on.  So the ring the
    precise test looks at is always active, and the number of rings standing
    is [len(circles) - active_circle_index], the "Arcs Left" on screen, as
    long as that is not negative. *)
Theorem rings_follow_active_index (cfg : Config) (countdown : R) (st : State) :
  reachable cfg countdown st ->
  (0 <= active_circle_index st)%Z
  /\ length (circles st) = Z.to_nat (num_arcs cfg)
  /\ (forall i c, nth_error (circles st) i = Some c ->
                  (RotatingArcCircle.active c = true
                   <-> (active_circle_index st <= Z.of_nat i)%Z))
  /\ (forall c, nth_error (circles st) (Z.to_nat (active_circle_index st)) = Some c ->
                target_ring st = Some c)
  /\ Z.of_nat (count_active (circles st))
     = Z.max 0 (len_circles st - active_circle_index st).
Proof.
  intros Hreach.
  assert (Hinv : (0 <= active_circle_index st)%Z
                 /\ length (circles st) = Z.to_nat (num_arcs cfg)
                 /\ rings_match_index st).
  { induction Hreach as [st0 H0|st st' Hr (IHa & IHl & IHm) Hstep].
    - destruct (initial_state_inv cfg countdown st0 H0) as (_ & Hcs & Hai & _).
      split; [lia|]. split; [apply (create_circles_length _ _ _ _ _ Hcs)|].
      intros i c Hi. rewrite Hai.
      destruct (create_circles_nth _ _ _ _ _ _ _ Hcs Hi) as (u1 & u2 & u3 & u4 & ->).
      simpl. symmetry; apply Z.leb_le; lia.
    - destruct (step_rings_match_index _ _ _ Hstep IHa IHm) as [Hm Hl].
      destruct (step_balls _ _ _ Hstep) as (_ & _ & Hmono).
      split; [lia|]. split; [congruence | exact Hm]. }
  destruct Hinv as (Ha & Hl & Hm).
  split; [exact Ha|]. split; [exact Hl|]. split; [|split].
  - intros i c Hi. rewrite (Hm i c Hi). apply Z.leb_le.
  - intros c Hc. unfold target_ring.
    assert (Hlt : (Z.to_nat (active_circle_index st) < length (circles st))%nat)
      by (apply nth_error_Some; congruence).
    replace (active_circle_index st <? len_circles st)%Z with true
      by (symmetry; apply Z.ltb_lt; unfold len_circles; lia).
    rewrite Hc, (Hm _ c Hc).
    replace (_ <=? _)%Z with true by (symmetry; apply Z.leb_le; lia).
    reflexivity.
  - rewrite (count_active_by_index (circles st) (Z.to_nat (active_circle_index st))).
    + unfold len_circles; lia.
    + intros i c Hi. rewrite (Hm i c Hi).
      destruct (active_circle_index st <=? Z.of_nat i)%Z eqn:E; symmetry.
      * apply Z.leb_le in E. apply Nat.leb_le; lia.
      * apply Z.leb_gt in E. apply Nat.leb_gt; lia.
Qed.

Lemma rings_follow_active_index_witness :
  exists st0,
    initial_state (sample_config 2) 60 = Some st0
    /\ length (circles st0) = 3%nat.
Proof.
  destruct (initial_state_some (sample_config 2) 60) as [st0 H0]; [simpl; lia|].
  exists st0. split; [exact H0|].
  destruct (rings_follow_active_index (sample_config 2) 60 st0
              (reachable_init (sample_config 2) 60 st0 H0)) as (_ & Hl & _).
  exact Hl.
Defined.

Lemma skip_loop_length (cfg : Config) (idxs : list Z) :
  forall st st', skip_loop cfg idxs st = Some st' ->
                 length (circles st') = length (circles st).
Proof.
  induction idxs as [|i rest IH]; intros st st' H; simpl in H.
  - injection H as <-; reflexivity.
  - destruct (py_get (circles st) i) as [c|]; [|discriminate].
    destruct (RotatingArcCircle.active c); [|apply IH; exact H].
    rewrite (IH _ _ H), vanish_circles. apply list_set_length.
Qed.

Lemma ring_manager_length (cfg : Config) (st st' : State) :
  ring_manager cfg st = Some st' -> length (circles st') = length (circles st).
Proof.
  unfold ring_manager.
  destruct (escape_scan cfg (balls st) (active_circle_index st)) as [m|];
    [|discriminate].
  destruct (m >? active_circle_index st)%Z.
  - destruct (skip_loop cfg _ st) as [st1|] eqn:Hs; [|discriminate].
    intros [= <-]. simpl. apply (skip_loop_length _ _ _ _ Hs).
  - unfold precise_breach.
    destruct (active_circle_index st <? len_circles st)%Z; [|intros [= <-]; reflexivity].
    destruct (py_get (circles st) (active_circle_index st)) as [c|]; [|discriminate].
    destruct (RotatingArcCircle.active c); [|intros [= <-]; reflexivity].
    destruct (find (breach_test cfg c) (balls st)); [|intros [= <-]; reflexivity].
    intros H.
    pose proof (vanish_circles cfg
                  (py_pos (circles st) (active_circle_index st)) c st) as Hcs.
    set (v := vanish cfg _ c st) in *. clearbody v.
    injection H as <-. cbn [circles set_balls set_active_circle_index].
    rewrite Hcs. apply list_set_length.
Qed.

Lemma step_monotone (cfg : Config) (st st' : State) :
  step cfg st st' ->
  (ball_hits st <= ball_hits st')%Z
  /\ time_left st' <= time_left st
  /\ length (circles st') = length (circles st).
Proof.
  intros H.
  destruct H as [quit st | st bs cs Hbs Hcs | st | arb st st' r Hc | st st' Hs].
  - unfold begin_iteration, dt; destruct quit; simpl; repeat split; try lia; lra.
  - simpl. rewrite (Forall2_same_length _ _ _ Hcs). repeat split; try lia; lra.
  - unfold ball_arc_collision; destruct (sounds_loaded cfg); simpl;
      repeat split; try lia; lra.
  - destruct (ball_ball_collision_frame _ _ _ _ _ Hc) as (Hcs & _ & Ht & Hh).
    rewrite Hcs, Ht. repeat split; try lia; lra.
  - destruct (after_step_inv _ _ _ Hs) as (st1 & Hrun & Hcs & _ & Hh & Ht).
    destruct (ring_manager_account _ _ _ Hrun) as [(Hh1 & Ht1 & _) _].
    rewrite Hcs, Hh, Ht, Hh1, Ht1, (ring_manager_length _ _ _ Hrun).
    repeat split; try lia; lra.
Qed.

(** X13: over any number of steps of the loop, the engine and the callbacks,
    the hit counter, the active index and the number of balls never go down,
    the clock never goes up, and the number of rings stays the same. *)
Theorem counters_are_monotone (cfg : Config) (st st' : State) :
  steps cfg st st' ->
  (ball_hits st <= ball_hits st')%Z
  /\ (active_circle_index st <= active_circle_index st')%Z
  /\ (length (balls st) <= length (balls st'))%nat
  /\ time_left st' <= time_left st
  /\ length (circles st') = length (circles st).
Proof.
  induction 1 as [st | st st1 st2 H1 _ IH].
  - repeat split; try lia; lra.
  - destruct (step_monotone _ _ _ H1) as (Hh & Ht & Hl).
    destruct (step_balls _ _ _ H1) as (Hb & _ & Ha).
    destruct IH as (IHh & IHa & IHb & IHt & IHl).
    repeat split; try lia; lra.
Qed.

Lemma counters_are_monotone_witness :
  time_left (begin_iteration false cleared_state) <= time_left cleared_state.
Proof.
  destruct (counters_are_monotone (sample_config 1) cleared_state
              (begin_iteration false cleared_state)) as (_ & _ & _ & Ht & _).
  - eapply steps_cons; [apply step_begin | apply steps_refl].
  - exact Ht.
Defined.

(** ** The skip path and the centre of a ball *)

Lemma Int_part_lt_iff (x : R) (k : Z) : (k < Int_part x)%Z <-> IZR k + 1 <= x.
Proof.
  pose proof (Int_part_bounds x) as [Hlo Hhi]. split.
  - intros H. assert (Hk : (k + 1 <= Int_part x)%Z) by lia.
    apply IZR_le in Hk. rewrite plus_IZR in Hk. lra.
  - intros H. apply lt_IZR. lra.
Qed.

Lemma escape_index_reaches (cfg : Config) (b : Ball.t) (k : Z) :
  0 < ball_radius cfg -> Ball.radius b = ball_radius cfg ->
  (k < spec_escape_index cfg b)%Z
  <-> base_radius_val cfg + IZR k * ball_radius cfg <= radial_length cfg b.
Proof.
  intros Hr Hb. unfold spec_escape_index, radius_increment.
  rewrite Int_part_lt_iff, Hb.
  replace ((radial_length cfg b + ball_radius cfg - base_radius_val cfg)
           / ball_radius cfg)
    with ((radial_length cfg b - base_radius_val cfg) / ball_radius cfg + 1)
    by (field; lra).
  split; intros H.
  - assert (H1 : IZR k <= (radial_length cfg b - base_radius_val cfg) / ball_radius cfg)
      by lra.
    apply (Rmult_le_compat_r (ball_radius cfg)) in H1; [|lra].
    replace ((radial_length cfg b - base_radius_val cfg) / ball_radius cfg
             * ball_radius cfg)
      with (radial_length cfg b - base_radius_val cfg) in H1 by (field; lra).
    lra.
  - assert (H1 : IZR k <= (radial_length cfg b - base_radius_val cfg) / ball_radius cfg).
    { apply (Rmult_le_reg_r (ball_radius cfg)); [lra|].
      replace ((radial_length cfg b - base_radius_val cfg) / ball_radius cfg
               * ball_radius cfg)
        with (radial_length cfg b - base_radius_val cfg) by (field; lra).
      lra. }
    lra.
Qed.

Lemma spec_max_ge_member (cfg : Config) (bs : list Ball.t) (a : Z) (b : Ball.t) :
  In b bs ->
  nonzero_radial cfg b && Rltb 0 (radial_dot cfg b) = true ->
  (spec_escape_index cfg b <= spec_max_escape_index cfg bs a)%Z.
Proof.
  intros Hin Hout. unfold spec_max_escape_index.
  induction bs as [|h t IH]; [contradiction|]. simpl.
  destruct Hin as [->|Hin].
  - rewrite Hout. simpl. lia.
  - specialize (IH Hin).
    destruct (nonzero_radial cfg h && Rltb 0 (radial_dot cfg h)); simpl; lia.
Qed.

(** X14: for a ball of the configured radius [r > 0], the escape index
    exceeds [k] exactly when the centre of the ball is at or beyond the
    radius [base + k * r] of ring [k].  So as soon as the centre of an
    outward-moving ball has reached the ring at the active index, the tick
    takes the skip path: that ring goes without any gap test and the active
    index moves on. *)
Theorem centre_on_ring_forces_skip (cfg : Config) (st : State) (b : Ball.t) :
  0 < ball_radius cfg ->
  (0 <= active_circle_index st)%Z ->
  In b (balls st) ->
  Ball.radius b = ball_radius cfg ->
  0 < radial_dot cfg b ->
  0 < radial_length cfg b ->
  (forall k : Z,
      (k < spec_escape_index cfg b)%Z
      <-> base_radius_val cfg + IZR k * ball_radius cfg <= radial_length cfg b)
  /\ (base_radius_val cfg + IZR (active_circle_index st) * ball_radius cfg
      <= radial_length cfg b ->
      exists st',
        ring_manager cfg st = Some st'
        /\ (active_circle_index st < active_circle_index st')%Z
        /\ balls st' = balls st
        /\ forall c, nth_error (circles st) (Z.to_nat (active_circle_index st)) = Some c ->
                     nth_error (circles st') (Z.to_nat (active_circle_index st))
                     = Some (RotatingArcCircle.remove c)).
Proof.
  intros Hr Ha Hin Hb Hdot Hlen.
  split; [intros k; apply escape_index_reaches; assumption|].
  intros Hreach.
  assert (Hout : nonzero_radial cfg b && Rltb 0 (radial_dot cfg b) = true).
  { apply andb_true_iff; split.
    - rewrite <- nonzero_radial_length. apply Rltb_true; exact Hlen.
    - apply Rltb_true; exact Hdot. }
  pose proof (proj2 (escape_index_reaches cfg b (active_circle_index st) Hr Hb) Hreach)
    as Hesc.
  pose proof (spec_max_ge_member cfg (balls st) (active_circle_index st) b Hin Hout)
    as Hmax.
  destruct (ring_manager_skip cfg st) as (st' & Hrun & Hai & Hbs & _ & _ & _ & Hnth);
    [lra | exact Ha | lia |].
  exists st'. split; [exact Hrun|]. split; [lia|]. split; [exact Hbs|].
  intros c Hc. rewrite (Hnth _ c Hc). unfold after_skip.
  assert (Hi : (Z.to_nat (active_circle_index st) < length (circles st))%nat)
    by (apply nth_error_Some; congruence).
  replace (_ && _) with true; [reflexivity|].
  symmetry; apply andb_true_iff; split; [apply Z.leb_le|apply Z.ltb_lt];
    unfold len_circles; lia.
Qed.

Lemma centre_on_ring_forces_skip_witness :
  exists st',
    ring_manager (sample_config 1) skip_state = Some st'
    /\ (active_circle_index skip_state < active_circle_index st')%Z.
Proof.
  destruct (centre_on_ring_forces_skip (sample_config 1) skip_state (ball_on_axis 11))
    as (_ & H).
  - simpl; lra.
  - simpl; lia.
  - left; reflexivity.
  - reflexivity.
  - rewrite sample_radial_dot; lra.
  - rewrite sample_radial_length; lra.
  - destruct H as (st' & Hrun & Hai & _).
    + rewrite sample_radial_length by lra.
      unfold base_radius_val; simpl; lra.
    + exists st'. split; [exact Hrun | exact Hai].
Defined.

(** ** The ball spawned by the ball-ball callback *)

Lemma candidate_loop_some (cfg : Config) (Renc : R) (p1 p2 : R * R) (fuel : nat) :
  forall cur c0,
    (0 < fuel)%nat ->
    exists k1 k2,
      fst (candidate_loop cfg Renc p1 p2 fuel cur c0)
      = Some (center_x cfg
              + uniform (rng cfg) k2 (Renc * (1 / 2)) Renc
                * cos (uniform (rng cfg) k1 0 (2 * PI)),
              center_y cfg
              + uniform (rng cfg) k2 (Renc * (1 / 2)) Renc
                * sin (uniform (rng cfg) k1 0 (2 * PI))).
Proof.
  induction fuel as [|fuel IH]; intros cur c0 Hf; [lia|].
  cbn [candidate_loop].
  destruct (Rleb _ _ && Rleb _ _).
  - exists cur, (S cur). reflexivity.
  - destruct fuel as [|fuel].
    + exists cur, (S cur). reflexivity.
    + apply IH; lia.
Qed.

Lemma radial_length_polar (cfg : Config) (nb : Ball.t) (r a : R) :
  0 <= r ->
  Ball.pos_x nb = center_x cfg + r * cos a ->
  Ball.pos_y nb = center_y cfg + r * sin a ->
  radial_length cfg nb = r.
Proof.
  intros Hr Hx Hy. unfold radial_length, radial_dx, radial_dy. rewrite Hx, Hy.
  replace (center_x cfg + r * cos a - center_x cfg) with (r * cos a) by ring.
  replace (center_y cfg + r * sin a - center_y cfg) with (r * sin a) by ring.
  rewrite on_circle. apply sqrt_square; exact Hr.
Qed.

(** The tail of the callback, from the enclosing radius on. *)
Lemma spawn_in_enclosing_circle (cfg : Config) (arbiter : Arbiter) (st2 : State)
      (Renc : R) :
  unit_draws (rng cfg) ->
  exists cand cur,
    candidate_loop cfg Renc (b1_position arbiter) (b2_position arbiter) 20
                   (rng_pos st2) None = (Some cand, cur)
    /\ Ball.radius (Ball.init (rng cfg) cur cand (ball_radius cfg) (ball_speed cfg))
       = ball_radius cfg
    /\ (0 <= Renc ->
        Renc / 2
        <= radial_length cfg
             (Ball.init (rng cfg) cur cand (ball_radius cfg) (ball_speed cfg))
        <= Renc).
Proof.
  intros Hu.
  destruct (candidate_loop_some cfg Renc (b1_position arbiter) (b2_position arbiter)
              20 (rng_pos st2) None) as (k1 & k2 & Hc); [lia|].
  destruct (candidate_loop cfg Renc _ _ 20 (rng_pos st2) None) as [cand cur].
  simpl in Hc; subst cand. do 2 eexists. split; [reflexivity|].
  split; [reflexivity|]. intros HR.
  pose proof (uniform_bounds (rng cfg) k2 (Renc * (1 / 2)) Renc Hu ltac:(lra)) as Hb.
  rewrite (radial_length_polar cfg _ (uniform (rng cfg) k2 (Renc * (1 / 2)) Renc)
             (uniform (rng cfg) k1 0 (2 * PI))); [lra | lra | reflexivity | reflexivity].
Qed.

(** X15: while fewer than 100 balls exist the ball-ball callback, called in
    a state with a non-negative active index, does not raise: it counts one
    hit, appends exactly one ball of the configured radius and leaves the
    rings alone.  The new ball's centre lies inside the enclosing circle, at
    a distance between half its radius and its radius from the common
    centre, the enclosing circle being the ring at the active index, or the
    last ring once the index is past all rings. *)
Theorem spawned_ball_inside_enclosing_circle (cfg : Config) (arbiter : Arbiter)
        (st : State) :
  unit_draws (rng cfg) ->
  (length (balls st) < 100)%nat ->
  (0 <= active_circle_index st)%Z ->
  exists st' new_ball,
    ball_ball_collision cfg arbiter st = Some (st', true)
    /\ balls st' = balls st ++ [new_ball]
    /\ Ball.radius new_ball = ball_radius cfg
    /\ ball_hits st' = (ball_hits st + 1)%Z
    /\ circles st' = circles st
    /\ (forall c, (active_circle_index st < len_circles st)%Z ->
                  nth_error (circles st) (Z.to_nat (active_circle_index st)) = Some c ->
                  0 <= RotatingArcCircle.radius c ->
                  RotatingArcCircle.radius c / 2 <= radial_length cfg new_ball
                  <= RotatingArcCircle.radius c)
    /\ ((len_circles st <= active_circle_index st)%Z ->
        0 <= last_ring_radius cfg ->
        last_ring_radius cfg / 2 <= radial_length cfg new_ball <= last_ring_radius cfg).
Proof.
  intros Hu Hlt Ha. unfold ball_ball_collision.
  replace (length (balls st) <? 100)%nat with true
    by (symmetry; apply Nat.ltb_lt; exact Hlt).
  set (st2 := if sounds_loaded cfg then _ else _).
  assert (Hst2 : balls st2 = balls st /\ ball_hits st2 = (ball_hits st + 1)%Z
                 /\ active_circle_index st2 = active_circle_index st
                 /\ circles st2 = circles st).
  { subst st2; destruct (sounds_loaded cfg); repeat split. }
  destruct Hst2 as (Hb & Hh & Hai & Hcs). clearbody st2.
  unfold len_circles. rewrite Hai, Hcs.
  destruct (active_circle_index st <? Z.of_nat (length (circles st)))%Z eqn:E.
  - apply Z.ltb_lt in E. rewrite py_get_nonneg by exact Ha.
    destruct (nth_error_in_bounds (circles st) (Z.to_nat (active_circle_index st)))
      as [c Hc]; [lia|].
    rewrite Hc. cbn [option_map].
    destruct (spawn_in_enclosing_circle cfg arbiter st2 (RotatingArcCircle.radius c) Hu)
      as (cand & cur & Hloop & Hrad & Hin).
    rewrite Hloop. do 2 eexists. split; [reflexivity|]. cbn -[Ball.init].
    rewrite Hb, Hh, Hcs. split; [reflexivity|]. split; [exact Hrad|].
    split; [reflexivity|]. split; [reflexivity|]. split.
    + intros c' _ Hc' HR. assert (c' = c) by congruence; subst c'. apply Hin; exact HR.
    + intros Hge; lia.
  - apply Z.ltb_ge in E.
    destruct (spawn_in_enclosing_circle cfg arbiter st2 (last_ring_radius cfg) Hu)
      as (cand & cur & Hloop & Hrad & Hin).
    unfold last_ring_radius in Hloop. rewrite Hloop.
    do 2 eexists. split; [reflexivity|]. cbn -[Ball.init].
    rewrite Hb, Hh, Hcs. split; [reflexivity|]. split; [exact Hrad|].
    split; [reflexivity|]. split; [reflexivity|]. split.
    + intros c' Hlt'; lia.
    + intros _ HR. apply Hin; exact HR.
Qed.

Lemma spawned_ball_inside_enclosing_circle_witness :
  exists st' new_ball,
    ball_ball_collision (sample_config 2) (mkArbiter (5, 0) (5, 0))
                        (sample_state [ball_on_axis 5] 0 30) = Some (st', true)
    /\ balls st' = [ball_on_axis 5] ++ [new_ball].
Proof.
  destruct (spawned_ball_inside_enclosing_circle (sample_config 2)
              (mkArbiter (5, 0) (5, 0)) (sample_state [ball_on_axis 5] 0 30))
    as (st' & nb & Hrun & Hb & _).
  - intros n; simpl; lra.
  - simpl; lia.
  - simpl; lia.
  - exists st', nb. split; [exact Hrun | exact Hb].
Defined.

(** ** Leaving the loop *)

(** X16: an iteration that starts with a QUIT event clears [running]; when
    the tick then ends with time remaining and without the won condition,
    the loop is left with [game_won] never assigned, and the code of the end
    message, which reads it, raises. *)
Theorem quit_leaves_game_won_unassigned (cfg : Config) (st0 st st' : State) :
  game_won st = None ->
  running st = false ->
  0 < time_left st ->
  after_step cfg st = Some st' ->
  ~ won_condition st' ->
  (running (begin_iteration true st0) = false
   /\ game_won (begin_iteration true st0) = game_won st0)
  /\ running st' = false /\ game_won st' = None /\ end_text_color st' = None.
Proof.
  intros Hg Hr Ht Hs Hnw. split; [split; reflexivity|]. unfold after_step in Hs.
  destruct (ring_manager cfg st) as [st1|] eqn:Hm; [|discriminate].
  injection Hs as <-.
  destruct (ring_manager_account cfg st st1 Hm) as [(_ & Ht1 & Hr1 & Hg1) _].
  set (st2 := set_particles (particle_pass dt (particles st1)) st1) in *.
  assert (Hnw2 : ~ ((active_circle_index st2 >= len_circles st2)%Z
                    /\ (len_circles st2 - active_circle_index st2 < -100)%Z)).
  { intros H. apply Hnw. unfold won_condition, len_circles.
    rewrite end_of_round_test_circles.
    destruct (end_of_round_test_frame st2) as (_ & Ha & _). rewrite Ha. exact H. }
  assert (Heq : end_of_round_test st2 = st2).
  { unfold end_of_round_test.
    rewrite (round_verdict_not_won _ _ (time_left st2) Hnw2).
    replace (Rleb (time_left st2) 0) with false; [reflexivity|].
    symmetry; apply Rleb_false. subst st2; simpl. rewrite Ht1; exact Ht. }
  rewrite Heq. unfold end_text_color. subst st2; simpl. rewrite Hr1, Hg1, Hr, Hg.
  repeat split.
Qed.

Lemma quit_leaves_game_won_unassigned_witness :
  end_text_color
    (end_of_round_test
       (set_particles (particle_pass dt []) (begin_iteration true cleared_state)))
  = None.
Proof.
  assert (Hnw : ~ won_condition
                  (end_of_round_test
                     (set_particles (particle_pass dt [])
                                    (begin_iteration true cleared_state)))).
  { unfold won_condition, len_circles. rewrite end_of_round_test_circles.
    destruct (end_of_round_test_frame
                (set_particles (particle_pass dt [])
                               (begin_iteration true cleared_state)))
      as (_ & Ha & _).
    rewrite Ha. simpl. lia. }
  destruct (quit_leaves_game_won_unassigned (sample_config 1) cleared_state
              (begin_iteration true cleared_state) _
              eq_refl eq_refl ltac:(simpl; unfold dt; lra) eq_refl Hnw)
    as (_ & _ & _ & H).
  exact H.
Defined.

(** ** Particles over several ticks *)

Lemma particle_update_compose (d1 d2 : R) (p : Particle.t) :
  Particle.update d2 (Particle.update d1 p) = Particle.update (d1 + d2) p.
Proof. destruct p; unfold Particle.update; simpl; f_equal; ring. Qed.

Lemma particle_pass_iter (d : R) (p : Particle.t) (n : nat) :
  0 <= d ->
  Nat.iter n (particle_pass d) [p]
  = if Rltb (INR n * d) (Particle.lifetime p)
    then [Particle.update (INR n * d) p]
    else (match n with O => [p] | S _ => [] end).
Proof.
  intros Hd. induction n as [|n IH].
  - simpl Nat.iter. rewrite Rmult_0_l.
    destruct (Rltb 0 (Particle.lifetime p)); [|reflexivity].
    f_equal. destruct p; unfold Particle.update; simpl; f_equal; ring.
  - rewrite Nat.iter_succ, IH, S_INR.
    pose proof (pos_INR n) as Hn.
    destruct (Rltb (INR n * d) (Particle.lifetime p)) eqn:E1.
    + apply Rltb_true in E1. unfold particle_pass. cbn [map filter].
      rewrite particle_update_compose. cbn [Particle.lifetime Particle.update].
      replace (INR n * d + d) with ((INR n + 1) * d) by ring.
      replace (Rltb 0 (Particle.lifetime p - (INR n + 1) * d))
        with (Rltb ((INR n + 1) * d) (Particle.lifetime p)); [|].
      * destruct (Rltb ((INR n + 1) * d) (Particle.lifetime p)); reflexivity.
      * destruct (Rltb ((INR n + 1) * d) (Particle.lifetime p)) eqn:E2; symmetry.
        -- apply Rltb_true in E2. apply Rltb_true. lra.
        -- apply Rltb_false in E2. apply Rltb_false. lra.
    + apply Rltb_false in E1.
      replace (Rltb ((INR n + 1) * d) (Particle.lifetime p)) with false
        by (symmetry; apply Rltb_false; nra).
      destruct n as [|n].
      * unfold particle_pass. cbn [map filter]. cbn [Particle.lifetime Particle.update].
        replace (Rltb 0 (Particle.lifetime p - d)) with false; [reflexivity|].
        symmetry; apply Rltb_false. simpl in E1. lra.
      * reflexivity.
Qed.

(** X17: particle updates compose, and so do passes: after [n >= 1] passes
    with the same step [d >= 0] a particle is still in the list exactly when
    its lifetime exceeds [n * d], and it is then where one update by
    [n * d] takes it. *)
Theorem particle_survives_iff (d : R) (p : Particle.t) (n : nat) :
  0 <= d -> (0 < n)%nat ->
  Particle.update d (Particle.update d p) = Particle.update (d + d) p
  /\ (INR n * d < Particle.lifetime p ->
      Nat.iter n (particle_pass d) [p] = [Particle.update (INR n * d) p])
  /\ (Particle.lifetime p <= INR n * d ->
      Nat.iter n (particle_pass d) [p] = []).
Proof.
  intros Hd Hn. split; [apply particle_update_compose|].
  rewrite (particle_pass_iter d p n Hd). split; intros H.
  - replace (Rltb _ _) with true by (symmetry; apply Rltb_true; exact H).
    reflexivity.
  - replace (Rltb _ _) with false by (symmetry; apply Rltb_false; exact H).
    destruct n; [lia | reflexivity].
Qed.

Lemma particle_survives_iff_witness :
  Nat.iter 61 (particle_pass dt) [Particle.mk 0 0 50 0 1] = [].
Proof.
  destruct (particle_survives_iff dt (Particle.mk 0 0 50 0 1) 61) as (_ & _ & H).
  - unfold dt; lra.
  - lia.
  - apply H. unfold dt; simpl. lra.
Defined.

(** ** The window *)

Lemma py_int_of_float_nonneg (x : R) :
  0 <= x -> (0 <= py_int_of_float x)%Z /\ IZR (py_int_of_float x) <= x.
Proof.
  intros Hx. unfold py_int_of_float.
  destruct (Rle_dec 0 x) as [_|Hn]; [|contradiction].
  pose proof (Int_part_bounds x) as [Hlo Hhi]. split; [|exact Hlo].
  apply le_IZR. apply Rnot_lt_le. intros Hneg.
  assert (Hk : (Int_part x <= -1)%Z) by (apply lt_IZR in Hneg; lia).
  apply IZR_le in Hk. lra.
Qed.

(** X18: for a positive aspect ratio and a screen of non-negative size, the
    window chosen fits the screen: neither its width nor its height exceeds
    what is available, and none is negative; one of the two is the full
    available size.  Without a positive ratio the whole screen is taken. *)
Theorem window_fits_screen (avail_w avail_h : Z) (aspect_ratio : R) :
  (0 <= avail_w)%Z -> (0 <= avail_h)%Z ->
  (0 < aspect_ratio ->
   (0 <= fst (window_size avail_w avail_h aspect_ratio) <= avail_w)%Z
   /\ (0 <= snd (window_size avail_w avail_h aspect_ratio) <= avail_h)%Z
   /\ (fst (window_size avail_w avail_h aspect_ratio) = avail_w
       \/ snd (window_size avail_w avail_h aspect_ratio) = avail_h))
  /\ (aspect_ratio <= 0 ->
      window_size avail_w avail_h aspect_ratio = (avail_w, avail_h)).
Proof.
  intros Hw Hh. split.
  - intros Har. unfold window_size.
    destruct (Req_dec_T aspect_ratio 0) as [E|_]; [lra|].
    replace (Rltb 0 aspect_ratio) with true by (symmetry; apply Rltb_true; exact Har).
    cbn [andb].
    assert (Hprod : 0 <= IZR avail_h * aspect_ratio).
    { apply Rmult_le_pos; [apply IZR_le; exact Hh | lra]. }
    destruct (py_int_of_float_nonneg _ Hprod) as [Hn1 Hn2].
    destruct (py_int_of_float (IZR avail_h * aspect_ratio) >? avail_w)%Z eqn:G.
    + apply Z.gtb_lt in G. cbn [fst snd].
      assert (Hquot : 0 <= IZR avail_w / aspect_ratio).
      { apply Rmult_le_pos; [apply IZR_le; exact Hw|].
        left; apply Rinv_0_lt_compat; exact Har. }
      destruct (py_int_of_float_nonneg _ Hquot) as [Hq1 Hq2].
      split; [lia|]. split; [|left; reflexivity]. split; [exact Hq1|].
      apply IZR_lt in G.
      assert (Hlt : IZR avail_w / aspect_ratio < IZR avail_h).
      { apply (Rmult_lt_reg_r aspect_ratio); [exact Har|].
        replace (IZR avail_w / aspect_ratio * aspect_ratio) with (IZR avail_w)
          by (field; lra).
        lra. }
      apply le_IZR. lra.
    + rewrite Z.gtb_ltb in G. apply Z.ltb_ge in G. cbn [fst snd].
      split; [lia|]. split; [lia | right; reflexivity].
  - intros Har. unfold window_size.
    replace (Rltb 0 aspect_ratio) with false by (symmetry; apply Rltb_false; exact Har).
    rewrite andb_false_r. reflexivity.
Qed.

Lemma window_fits_screen_witness :
  (0 <= fst (window_size 1920 1200 (16 / 9)) <= 1920)%Z.
Proof.
  destruct (window_fits_screen 1920 1200 (16 / 9)) as [H _]; [lia | lia |].
  destruct H as (Hw & _); [lra | exact Hw].
Defined.

(** ** Command-line helpers *)

Module ArgsFacts.
Import String Ascii Args.

Lemma split_on_nonempty (sep : ascii) (s : string) : split_on sep s <> [].
Proof.
  destruct s as [|c s]; simpl; [discriminate|].
  destruct (Ascii.eqb c sep); [discriminate|].
  destruct (split_on sep s); discriminate.
Qed.

Lemma split_on_length (sep : ascii) (s : string) :
  List.length (split_on sep s) = S (count_char sep s).
Proof.
  induction s as [|c s IH]; simpl; [reflexivity|].
  destruct (Ascii.eqb c sep); simpl; [rewrite IH; reflexivity|].
  destruct (split_on sep s) as [|h t] eqn:E; simpl in *; [discriminate | exact IH].
Qed.

Lemma split_on_no_sep (sep : ascii) (s : string) :
  contains sep s = false -> split_on sep s = [s].
Proof.
  induction s as [|c s IH]; simpl; [reflexivity|].
  intros H. apply orb_false_iff in H; destruct H as [Hc Hs].
  rewrite Hc, (IH Hs). reflexivity.
Qed.

Lemma split_on_app_sep (sep : ascii) (w t : string) :
  contains sep w = false ->
  split_on sep (String.append w (String sep t)) = w :: split_on sep t.
Proof.
  induction w as [|c w IH]; simpl.
  - intros _. rewrite Ascii.eqb_refl. reflexivity.
  - intros H. apply orb_false_iff in H; destruct H as [Hc Hw].
    rewrite Hc, (IH Hw). reflexivity.
Qed.

Lemma contains_app_sep (sep : ascii) (w t : string) :
  contains sep (String.append w (String sep t)) = true.
Proof.
  induction w as [|c w IH]; simpl.
  - rewrite Ascii.eqb_refl. reflexivity.
  - rewrite IH. apply orb_true_r.
Qed.

Lemma sequence_some_iff {A B : Type} (f : A -> option B) (l : list A) :
  (forall x, In x l -> f x <> None) ->
  exists t, sequence (map f l) = Some t /\ Forall2 (fun x z => f x = Some z) l t.
Proof.
  induction l as [|h l IH]; intros H; simpl.
  - exists []. split; [reflexivity | constructor].
  - destruct (f h) as [z|] eqn:E; [|exfalso; apply (H h); [left; reflexivity | exact E]].
    destruct IH as (t & Ht & Hall); [intros x Hx; apply H; right; exact Hx|].
    rewrite Ht. exists (z :: t). split; [reflexivity|]. constructor; assumption.
Qed.

Lemma sequence_none {A B : Type} (f : A -> option B) (l : list A) (x : A) :
  In x l -> f x = None -> sequence (map f l) = None.
Proof.
  induction l as [|h l IH]; intros Hin Hx; [contradiction|]. simpl.
  destruct Hin as [->|Hin].
  - rewrite Hx. reflexivity.
  - destruct (f h); [|reflexivity]. rewrite (IH Hin Hx). reflexivity.
Qed.

(** X19: [parse_color] never raises.  When every comma-separated field is
    read by [int], the result holds one integer per field, in order: one
    more than the number of commas, not necessarily three.  When any field
    is not read, the result is white, [(255, 255, 255)]. *)
Theorem parse_color_fields (env : Builtins) (s : string) :
  ((forall x, In x (split_on "," s) -> py_int env (strip env x) <> None) ->
   List.length (parse_color env s) = S (count_char "," s)
   /\ Forall2 (fun x z => py_int env (strip env x) = Some z)
              (split_on "," s) (parse_color env s))
  /\ ((exists x, In x (split_on "," s) /\ py_int env (strip env x) = None) ->
      parse_color env s = [255; 255; 255]%Z).
Proof.
  split.
  - intros H. unfold parse_color.
    destruct (sequence_some_iff (fun x => py_int env (strip env x)) _ H)
      as (t & Ht & Hall).
    rewrite Ht. split; [|exact Hall].
    rewrite (Forall2_same_length _ _ _ Hall). apply split_on_length.
  - intros (x & Hin & Hx). unfold parse_color.
    rewrite (sequence_none (fun x => py_int env (strip env x)) _ x Hin Hx).
    reflexivity.
Qed.

Example parse_color_two_fields : parse_color sample_builtins "1,2" = [1; 2]%Z.
Proof. reflexivity. Qed.

Example parse_color_bad_field :
  parse_color sample_builtins "1,x,3" = [255; 255; 255]%Z.
Proof. reflexivity. Qed.

(** X20: [parse_aspect_ratio] on a string without a colon is [float] of the
    string.  On [w:h], with no colon in [w] and [h], it is the quotient of
    the two floats, and it raises when a part is not a float or when the
    second is zero.  Whatever follows a second colon is ignored. *)
Theorem parse_aspect_ratio_forms (env : Builtins) (w h rest : string) :
  contains ":" w = false ->
  contains ":" h = false ->
  parse_aspect_ratio env w = py_float env w
  /\ parse_aspect_ratio env (String.append w (String ":" h))
     = match py_float env w, py_float env h with
       | Some x, Some y => if Req_dec_T y 0 then None else Some (x / y)
       | _, _ => None
       end
  /\ (py_float env h = Some 0 ->
      parse_aspect_ratio env (String.append w (String ":" h)) = None)
  /\ parse_aspect_ratio env
       (String.append w (String ":" (String.append h (String ":" rest))))
     = parse_aspect_ratio env (String.append w (String ":" h)).
Proof.
  intros Hw Hh.
  assert (Hwh : parse_aspect_ratio env (String.append w (String ":" h))
                = match py_float env w, py_float env h with
                  | Some x, Some y => if Req_dec_T y 0 then None else Some (x / y)
                  | _, _ => None
                  end).
  { unfold parse_aspect_ratio.
    rewrite contains_app_sep, (split_on_app_sep ":" w h Hw), (split_on_no_sep ":" h Hh).
    reflexivity. }
  split; [unfold parse_aspect_ratio; rewrite Hw; reflexivity|].
  split; [exact Hwh|]. split.
  - intros H0. rewrite Hwh, H0.
    destruct (py_float env w); [|reflexivity].
    destruct (Req_dec_T 0 0) as [_|Hn]; [reflexivity | contradiction].
  - rewrite Hwh. unfold parse_aspect_ratio.
    rewrite contains_app_sep, (split_on_app_sep ":" w _ Hw),
      (split_on_app_sep ":" h rest Hh).
    reflexivity.
Qed.

Lemma parse_aspect_ratio_forms_witness :
  parse_aspect_ratio sample_builtins "16:9" = Some (16 / 9).
Proof.
  destruct (parse_aspect_ratio_forms sample_builtins "16" "9" "" eq_refl eq_refl)
    as (_ & H & _).
  simpl String.append in H. rewrite H. simpl.
  destruct (Req_dec_T 9 0) as [E|_]; [lra | reflexivity].
Defined.

End ArgsFacts.

(** ** Errors and the way to win *)

Lemma escape_scan_raises (cfg : Config) (bs : list Ball.t) (b : Ball.t) :
  ball_radius cfg = 0 -> In b bs ->
  0 < radial_length cfg b -> 0 < radial_dot cfg b ->
  forall m, escape_scan cfg bs m = None.
Proof.
  intros Hr Hin Hlen Hdot.
  assert (Hb : forall m, escape_step cfg b m = None).
  { intros m. unfold escape_step.
    replace (Rltb 0 (radial_length cfg b)) with true
      by (symmetry; apply Rltb_true; exact Hlen).
    replace (Rltb 0 (radial_dot cfg b)) with true
      by (symmetry; apply Rltb_true; exact Hdot).
    unfold py_floordiv, radius_increment. simpl.
    destruct (Req_dec_T (ball_radius cfg) 0) as [_|Hn]; [reflexivity | contradiction]. }
  induction bs as [|h t IH]; intros m; [contradiction|]. simpl.
  destruct Hin as [->|Hin].
  - rewrite Hb. reflexivity.
  - destruct (escape_step cfg h m); [apply (IH Hin) | reflexivity].
Qed.

(** X21: with ball radius 0 the rings are spaced by 0, and a tick raises
    (float floor division by zero) as soon as one ball off the common centre
    moves outward; with no such ball the scan passes and returns the active
    index. *)
Theorem zero_spacing_raises (cfg : Config) (st : State) :
  ball_radius cfg = 0 ->
  ((exists b, In b (balls st) /\ 0 < radial_length cfg b /\ 0 < radial_dot cfg b) ->
   ring_manager cfg st = None /\ after_step cfg st = None)
  /\ ((forall b, In b (balls st) ->
                 Rltb 0 (radial_length cfg b) && Rltb 0 (radial_dot cfg b) = false) ->
      escape_scan cfg (balls st) (active_circle_index st)
      = Some (active_circle_index st)).
Proof.
  intros Hr. split.
  - intros (b & Hin & Hlen & Hdot).
    assert (Hm : ring_manager cfg st = None).
    { unfold ring_manager.
      rewrite (escape_scan_raises cfg (balls st) b Hr Hin Hlen Hdot). reflexivity. }
    split; [exact Hm|]. unfold after_step. rewrite Hm. reflexivity.
  - generalize (active_circle_index st) as m.
    induction (balls st) as [|h t IH]; intros m H; simpl; [reflexivity|].
    unfold escape_step at 1. rewrite (H h) by (left; reflexivity).
    apply IH. intros b Hb; apply H; right; exact Hb.
Qed.

Lemma zero_spacing_raises_witness :
  ring_manager (mkConfig 3 0 1 10 2 150 0 0 true 20 (fun _ => 0))
               (sample_state [ball_on_axis 5] 0 30) = None.
Proof.
  destruct (zero_spacing_raises (mkConfig 3 0 1 10 2 150 0 0 true 20 (fun _ => 0))
              (sample_state [ball_on_axis 5] 0 30) eq_refl) as [H _].
  apply H. exists (ball_on_axis 5). split; [left; reflexivity|].
  assert (Hl : radial_length (mkConfig 3 0 1 10 2 150 0 0 true 20 (fun _ => 0))
                             (ball_on_axis 5) = 5).
  { rewrite radial_length_on_axis; unfold radial_dx, radial_dy; simpl; lra. }
  rewrite Hl. unfold radial_dot, radial_dx, radial_dy; simpl. lra.
Defined.

Lemma precise_breach_index (cfg : Config) (st st' : State) :
  precise_breach cfg st = Some st' ->
  active_circle_index st' = active_circle_index st
  \/ (active_circle_index st' = (active_circle_index st + 1)%Z
      /\ (active_circle_index st < len_circles st)%Z).
Proof.
  unfold precise_breach.
  destruct (active_circle_index st <? len_circles st)%Z eqn:E;
    [|intros [= <-]; left; reflexivity].
  apply Z.ltb_lt in E.
  destruct (py_get (circles st) (active_circle_index st)) as [c|]; [|discriminate].
  destruct (RotatingArcCircle.active c); [|intros [= <-]; left; reflexivity].
  destruct (find (breach_test cfg c) (balls st)); [|intros [= <-]; left; reflexivity].
  intros H. right.
  pose proof (vanish_active_circle_index cfg
                (py_pos (circles st) (active_circle_index st)) c st) as Ha.
  set (v := vanish cfg _ c st) in *. clearbody v.
  injection H as <-. cbn [active_circle_index set_balls set_active_circle_index].
  rewrite Ha. split; [reflexivity | exact E].
Qed.

(** X22: the only way to win is the skip path.  In a round whose result is
    not yet assigned and whose active index is not yet more than 100 past
    the number of rings, a tick ends the round as won, that is, leaves
    [running] false and [game_won] true, exactly when the maximum escape
    index of the scan exceeds [len(circles) + 100]; one-ring-at-a-time
    breaches never win. *)
Theorem win_needs_far_escape (cfg : Config) (st : State) :
  ball_radius cfg <> 0 ->
  (0 <= active_circle_index st)%Z ->
  (active_circle_index st <= len_circles st + 100)%Z ->
  game_won st = None ->
  exists st',
    after_step cfg st = Some st'
    /\ (running st' = false /\ game_won st' = Some true
        <-> (spec_max_escape_index cfg (balls st) (active_circle_index st)
             > len_circles st + 100)%Z)
    /\ (match_state st' = Won
        <-> (spec_max_escape_index cfg (balls st) (active_circle_index st)
             > len_circles st + 100)%Z).
Proof.
  intros Hr Ha Hcap Hg.
  destruct (ring_manager_total cfg st Hr Ha) as [st1 Hrun].
  unfold after_step. rewrite Hrun. eexists. split; [reflexivity|].
  match goal with |- _ /\ (?P <-> ?Q) => cut (P <-> Q) end.
  { intros Hm. split; [rewrite <- match_state_won|]; exact Hm. }
  destruct (ring_manager_account cfg st st1 Hrun) as [(_ & _ & _ & Hg1) _].
  pose proof (ring_manager_length cfg st st1 Hrun) as Hlen.
  set (st2 := set_particles (particle_pass dt (particles st1)) st1).
  rewrite (match_state_end_of_round st2) by (subst st2; simpl; congruence).
  pose proof (round_verdict_won (len_circles st2) (active_circle_index st2)
                                (time_left st2)) as Hw.
  assert (Hiff : match round_verdict (len_circles st2) (active_circle_index st2)
                         (time_left st2) with
                 | Some true => Won | Some false => Lost | None => Running end = Won
                 <-> (active_circle_index st1 - len_circles st > 100)%Z).
  { assert (Hl2 : len_circles st2 = len_circles st)
      by (subst st2; unfold len_circles; simpl; rewrite Hlen; reflexivity).
    assert (Ha2 : active_circle_index st2 = active_circle_index st1) by reflexivity.
    rewrite Hl2, Ha2 in *.
    destruct (round_verdict _ _ _) as [[|]|].
    - split; [intros _|reflexivity]. destruct Hw as [Hw _]. specialize (Hw eq_refl). lia.
    - split; [discriminate|]. intros H. destruct Hw as [_ Hw].
      assert (Some false = Some true) by (apply Hw; lia). discriminate.
    - split; [discriminate|]. intros H. destruct Hw as [_ Hw].
      assert (@None bool = Some true) by (apply Hw; lia). discriminate. }
  rewrite Hiff.
  pose proof (spec_max_ge cfg (balls st) (active_circle_index st)) as Hge.
  destruct (Z_le_gt_dec
              (spec_max_escape_index cfg (balls st) (active_circle_index st))
              (active_circle_index st)) as [Hle|Hgt].
  - rewrite (ring_manager_no_skip cfg st Hr Hle) in Hrun.
    destruct (precise_breach_index cfg st st1 Hrun) as [Hs|[Hs Hlt]]; lia.
  - destruct (ring_manager_skip cfg st Hr Ha Hgt) as (st1' & Hrun' & Hai & _).
    assert (st1' = st1) by congruence; subst st1'. rewrite Hai. lia.
Qed.

Lemma win_needs_far_escape_witness :
  exists st',
    after_step (sample_config 1) skip_state = Some st'
    /\ ~ (running st' = false /\ game_won st' = Some true).
Proof.
  assert (Hmax : spec_max_escape_index (sample_config 1) (balls skip_state)
                   (active_circle_index skip_state) = 2%Z).
  { apply (sample_max_one_ball 1 11 2 0); lra. }
  destruct (win_needs_far_escape (sample_config 1) skip_state)
    as (st' & Hrun & Hiff & _).
  - apply sample_config_radius.
  - simpl; lia.
  - unfold len_circles; simpl; lia.
  - reflexivity.
  - exists st'. split; [exact Hrun|]. intros Hw. apply Hiff in Hw.
    rewrite Hmax in Hw. unfold len_circles in Hw; simpl in Hw. lia.
Defined.
